(** * fairseq2 native data layer: record reader, counting source, string split

    A shallow embedding of
    - [src/fairseq2/native/data/record_reader.cc],
    - [src/fairseq2/native/data/count_data_source.cc],
    - [src/fairseq2/native/data/immutable_string.cc],
    followed by the properties proved about them.

    Conventions.  A [memory_block] is the list of the bytes it views; sharing
    and copying differ only in ownership, which has no observable effect on
    immutable blocks, so both are modelled by the bytes they denote.  A
    [std::size_t] that measures bytes held in memory is a [nat].  The
    [std::int64_t] counter is a [Z] kept in the 64-bit two's-complement
    range.  A C++ exception is an explicit [Throws]/[Throw] result that
    keeps the state of the object at the point of the throw. *)

From Stdlib Require Import String.
From Stdlib Require Import List ZArith Lia Bool Arith.
From Stdlib.Strings Require Import Byte.
Import ListNotations.

Set Warnings "-register-all".

(* ================================================================= *)
(** ** Errors *)

(** The exceptions the modelled code can raise.  [record_error n] is the
    [record_error] thrown by [record_reader::load_next_record]; [n] is the
    number substituted in its message "The stream ends with a partial
    record of {} byte(s).".  [out_of_range] is the failure of a sub-range
    request.  [memory_fault] stands for a copy that leaves the buffer it was
    given (undefined behaviour in C++).  [tape_error] is a failed typed read
    of a position tape. *)
Inductive error : Type :=
| record_error (n : nat)
| out_of_range
| memory_fault
| tape_error.

Inductive result (A : Type) : Type :=
| Ok (a : A)
| Throw (e : error).

Arguments Ok {A} a.
Arguments Throw {A} e.

Definition bind {A B : Type} (m : result A) (k : A -> result B) : result B :=
  match m with
  | Ok a => k a
  | Throw e => Throw e
  end.

Notation "x <- m ;; k" := (bind m (fun x => k))
  (at level 61, m at next level, right associativity).

(* ================================================================= *)
(** ** Memory blocks *)

Definition memory_block : Type := list byte.

Module memory.

Definition size (b : memory_block) : nat := length b.

Definition empty (b : memory_block) : bool :=
  match b with
  | [] => true
  | _ :: _ => false
  end.

(** Modelled from the spec: [memory_block::share_slice(offset, count)] is
    declared in [memory.h], which is not part of the sources at hand.  Spec
    4.1: a zero-copy view of [count] bytes from [offset]; it requires
    [offset + count <= size] and fails with [OutOfRange] otherwise. *)
Definition share_slice (b : memory_block) (offset count : nat) : result memory_block :=
  if offset + count <=? size b
  then Ok (firstn count (skipn offset b))
  else Throw out_of_range.

(** Modelled from the spec: [share_first(count)], the convenience form of
    [share_slice(0, count)] (spec 4.1). *)
Definition share_first (b : memory_block) (count : nat) : result memory_block :=
  share_slice b 0 count.

(** Modelled from the spec: the one-argument [share_slice(offset)], the
    spec's [share_from]: the tail of the block from [offset] on (spec 4.1). *)
Definition share_from (b : memory_block) (offset : nat) : result memory_block :=
  share_slice b offset (size b - offset).

(** Modelled from the spec: [allocate_memory(size)] gives fresh owned
    storage of [size] bytes (spec 4.1).  Its contents are indeterminate in
    C++; the model fills it with zero bytes. *)
Definition allocate_memory (n : nat) : memory_block := repeat x00 n.

(** [std::copy(src.begin(), src.end(), iter)] into the writable block
    [buf], where [iter] is the index in [buf] of the output iterator.
    Returns the block written and the advanced iterator.  Writing past the
    end of [buf] is a [memory_fault]. *)
Definition copy (src : memory_block) (buf : memory_block) (iter : nat)
  : result (memory_block * nat) :=
  if iter + size src <=? size buf
  then Ok (firstn iter buf ++ src ++ skipn (iter + size src) buf, iter + size src)
  else Throw memory_fault.

End memory.

(* ================================================================= *)
(** ** The chunked byte stream *)

Module byte_stream.

(** Modelled from the spec: the chunked stream is an external collaborator
    (spec 6): [read_chunk()] yields the next chunk, or an empty block at the
    end of the input, and [reset()] rewinds to the beginning.  The model is
    an in-memory stream: [chunks_] is the whole input, [pending_] what has
    not been read yet. *)
Record t : Type := mk {
  chunks_ : list memory_block;
  pending_ : list memory_block
}.

Definition open (chunks : list memory_block) : t :=
  {| chunks_ := chunks; pending_ := chunks |}.

Definition read_chunk (s : t) : memory_block * t :=
  match pending_ s with
  | [] => ([], s)
  | c :: rest => (c, {| chunks_ := chunks_ s; pending_ := rest |})
  end.

Definition reset (s : t) : t :=
  {| chunks_ := chunks_ s; pending_ := chunks_ s |}.

End byte_stream.

(* ================================================================= *)
(** ** record_reader.cc *)

Module record_reader.

(** The data members of [record_reader]. *)
Record t : Type := mk {
  stream_ : byte_stream.t;
  current_chunk_ : memory_block;
  previous_chunks_ : list memory_block;
  record_length_ : nat;
  record_end_offset_ : nat
}.

(** What a member function call leaves behind: it returns a value, or it
    throws; either way the object is in some state afterwards. *)
Inductive outcome (A : Type) : Type :=
| Returns (a : A) (r : t)
| Throws (e : error) (r : t).

Arguments Returns {A} a r.
Arguments Throws {A} e r.

(** Modelled from the spec: the constructor is defined in the header,
    which is not at hand.  A reader starts idle, with no chunk buffered
    (spec 4.3), which is also the state [reset] puts it in. *)
Definition create (s : byte_stream.t) : t :=
  {| stream_ := s;
     current_chunk_ := [];
     previous_chunks_ := [];
     record_length_ := 0;
     record_end_offset_ := 0 |}.

Definition set_pending (r : t) (pending : list memory_block) : t :=
  {| stream_ := {| byte_stream.chunks_ := byte_stream.chunks_ (stream_ r);
                   byte_stream.pending_ := pending |};
     current_chunk_ := current_chunk_ r;
     previous_chunks_ := previous_chunks_ r;
     record_length_ := record_length_ r;
     record_end_offset_ := record_end_offset_ r |}.

(** [record_reader::reset] (lines 34-42). *)
Definition reset (r : t) : t :=
  {| stream_ := byte_stream.reset (stream_ r);
     current_chunk_ := [];
     previous_chunks_ := [];
     record_length_ := record_length_ r;
     record_end_offset_ := record_end_offset_ r |}.

Section Strategy.

(** [find_record_end] is the pure virtual member that a concrete reader
    supplies: the boundary strategy.  It sees the current chunk and the
    flag [first_chunk] only. *)
Variable find_record_end : memory_block -> bool -> option nat.

(** The [while] loop of [load_next_record] (lines 54-75).  [pending] is
    the unread part of [stream_]; the match on it is the call
    [stream_->read_chunk()].  The loop reads one chunk per iteration, so it
    is structurally recursive on [pending]. *)
Fixpoint load_loop (pending : list memory_block) (first_chunk : bool) (r : t)
  : outcome bool :=
  match find_record_end (current_chunk_ r) first_chunk with
  | Some record_end_offset =>
      (* lines 77-82 *)
      Returns true
        {| stream_ := stream_ (set_pending r pending);
           current_chunk_ := current_chunk_ r;
           previous_chunks_ := previous_chunks_ r;
           record_length_ := record_length_ r + record_end_offset;
           record_end_offset_ := record_end_offset |}
  | None =>
      match pending with
      | [] =>
          (* read_chunk gave an empty block: lines 56-64 *)
          if memory.empty (current_chunk_ r)
          then Returns false (set_pending r [])
          else Throws (record_error (memory.size (current_chunk_ r))) (set_pending r [])
      | next_chunk :: pending' =>
          if memory.empty next_chunk
          then
            if memory.empty (current_chunk_ r)
            then Returns false (set_pending r pending')
            else Throws (record_error (memory.size (current_chunk_ r)))
                        (set_pending r pending')
          else
            (* lines 68-74 *)
            load_loop pending' false
              {| stream_ := stream_ (set_pending r pending');
                 current_chunk_ := next_chunk;
                 previous_chunks_ := previous_chunks_ r ++ [current_chunk_ r];
                 record_length_ := record_length_ r + memory.size (current_chunk_ r);
                 record_end_offset_ := record_end_offset_ r |}
      end
  end.

(** [record_reader::load_next_record] (lines 44-83). *)
Definition load_next_record (r : t) : outcome bool :=
  load_loop (byte_stream.pending_ (stream_ r)) true
    {| stream_ := stream_ r;
       current_chunk_ := current_chunk_ r;
       previous_chunks_ := previous_chunks_ r;
       record_length_ := 0;
       record_end_offset_ := record_end_offset_ r |}.

(** The [std::for_each] of [copy_split_record] (lines 105-108): each
    previous chunk is copied at the output iterator, which advances. *)
Fixpoint copy_chunks (chunks : list memory_block) (record : memory_block) (iter : nat)
  : result (memory_block * nat) :=
  match chunks with
  | [] => Ok (record, iter)
  | block :: chunks' =>
      st <- memory.copy block record iter ;;
      copy_chunks chunks' (fst st) (snd st)
  end.

(** [record_reader::copy_split_record] (lines 98-113).  The range
    [current_chunk_.begin(), current_chunk_.begin() + record_end_offset_)
    has to lie within the current chunk. *)
Definition copy_split_record (r : t) : result memory_block :=
  let record := memory.allocate_memory (record_length_ r) in
  st <- copy_chunks (previous_chunks_ r) record 0 ;;
  if record_end_offset_ r <=? memory.size (current_chunk_ r)
  then
    st' <- memory.copy (firstn (record_end_offset_ r) (current_chunk_ r)) (fst st) (snd st) ;;
    Ok (fst st')
  else Throw memory_fault.

(** [record_reader::extract_record] (lines 85-96). *)
Definition extract_record (r : t) : result memory_block :=
  match previous_chunks_ r with
  | [] => memory.share_first (current_chunk_ r) (record_length_ r)
  | _ :: _ => copy_split_record r
  end.

(** [record_reader::move_to_next_record] (lines 115-121). *)
Definition move_to_next_record (r : t) : result t :=
  chunk <- memory.share_from (current_chunk_ r) (record_end_offset_ r) ;;
  Ok {| stream_ := stream_ r;
        current_chunk_ := chunk;
        previous_chunks_ := [];
        record_length_ := record_length_ r;
        record_end_offset_ := record_end_offset_ r |}.

(** [record_reader::next] (lines 21-32).  The empty block [{}] is the
    end-of-data value. *)
Definition next (r : t) : outcome memory_block :=
  match load_next_record r with
  | Throws e r' => Throws e r'
  | Returns false r' => Returns [] r'
  | Returns true r' =>
      match extract_record r' with
      | Throw e => Throws e r'
      | Ok record =>
          match move_to_next_record r' with
          | Throw e => Throws e r'
          | Ok r'' => Returns record r''
          end
      end
  end.

(** *** Draining a reader

    The consumer's loop: call [next] until it returns the empty block or
    throws.  [drain_fuel] bounds the number of calls; [drain] supplies a
    bound that is always enough (see [drain_fuel_enough]). *)
Inductive drain_end : Type :=
| end_of_data
| failed (e : error)
| out_of_fuel.

Fixpoint drain_fuel (fuel : nat) (r : t) : list memory_block * drain_end * t :=
  match fuel with
  | 0 => ([], out_of_fuel, r)
  | S fuel' =>
      match next r with
      | Throws e r' => ([], failed e, r')
      | Returns record r' =>
          if memory.empty record
          then ([], end_of_data, r')
          else
            let '(records, how, r'') := drain_fuel fuel' r' in
            (record :: records, how, r'')
      end
  end.

(** The bytes and chunks the reader can still consume. *)
Definition measure (r : t) : nat :=
  length (concat (byte_stream.pending_ (stream_ r)))
  + length (byte_stream.pending_ (stream_ r))
  + memory.size (current_chunk_ r).

Definition drain (r : t) : list memory_block * drain_end * t :=
  drain_fuel (S (measure r)) r.

Definition records_of (d : list memory_block * drain_end * t) : list memory_block :=
  fst (fst d).

Definition ending_of (d : list memory_block * drain_end * t) : drain_end :=
  snd (fst d).

Definition reader_of (d : list memory_block * drain_end * t) : t :=
  snd d.

(** *** Contracts

    [within_chunk]: the strategy's side of spec 4.4, a boundary offset lies
    within the chunk examined ("K <= chunk length").  [positive_offsets]:
    every record takes at least one byte of the chunk in which it ends, as
    with a delimiter.  [clean]: the reader holds no previous chunks, which
    is how the constructor, [reset] and every call of [next] that returns
    leave it. *)
Definition within_chunk : Prop :=
  forall (chunk : memory_block) (first_chunk : bool) (k : nat),
    find_record_end chunk first_chunk = Some k -> k <= length chunk.

Definition positive_offsets : Prop :=
  forall (chunk : memory_block) (first_chunk : bool) (k : nat),
    find_record_end chunk first_chunk = Some k -> 1 <= k.

End Strategy.

Definition clean (r : t) : Prop := previous_chunks_ r = [].

(** The flag with which the chunk that ends the loading loop was examined,
    when the loop read the chunks [taken]. *)
Definition flag_after (first_chunk : bool) (taken : list memory_block) : bool :=
  match taken with
  | [] => first_chunk
  | _ :: _ => false
  end.

(** The state [move_to_next_record] leaves when it succeeds. *)
Definition moved (r : t) : t :=
  {| stream_ := stream_ r;
     current_chunk_ := skipn (record_end_offset_ r) (current_chunk_ r);
     previous_chunks_ := [];
     record_length_ := record_length_ r;
     record_end_offset_ := record_end_offset_ r |}.

(** The bytes the reader holds or can still read. *)
Definition unread (r : t) : memory_block :=
  concat (previous_chunks_ r) ++ current_chunk_ r
  ++ concat (byte_stream.pending_ (stream_ r)).

End record_reader.

(* ================================================================= *)
(** ** The line-delimited boundary strategy *)

Module line_delimited.

(** Modelled from the spec: the concrete strategy lives in a source file
    that is not at hand.  Spec 4.4: "found when a designated delimiter byte
    occurs; offset is the delimiter's position plus one".  The
    [first_chunk] flag is not used. *)
Fixpoint find_delimiter (delimiter : byte) (chunk : memory_block) : option nat :=
  match chunk with
  | [] => None
  | c :: rest =>
      if Byte.eqb c delimiter
      then Some 1
      else option_map S (find_delimiter delimiter rest)
  end.

Definition find_record_end (delimiter : byte) (chunk : memory_block) (first_chunk : bool)
  : option nat :=
  find_delimiter delimiter chunk.

(** The default instance: records end at a line feed. *)
Definition LF : byte := x0a.

Definition find_line_end : memory_block -> bool -> option nat :=
  find_record_end LF.

(** *** The records of an unfragmented input

    What the records of a byte sequence are, told without chunks: each
    record runs through the next delimiter, delimiter included.
    [split_lines delimiter acc s] reads [s] byte by byte with the bytes
    [acc] of the record in progress; it gives the complete records and the
    bytes left behind the last delimiter. *)
Fixpoint split_lines (delimiter : byte) (acc s : memory_block)
  : list memory_block * memory_block :=
  match s with
  | [] => ([], acc)
  | c :: rest =>
      if Byte.eqb c delimiter
      then
        let (records, partial) := split_lines delimiter [] rest in
        ((acc ++ [c]) :: records, partial)
      else split_lines delimiter (acc ++ [c]) rest
  end.

Definition lines (delimiter : byte) (s : memory_block) : list memory_block :=
  fst (split_lines delimiter [] s).

Definition partial_line (delimiter : byte) (s : memory_block) : memory_block :=
  snd (split_lines delimiter [] s).

End line_delimited.

(* ================================================================= *)
(** ** Another boundary strategy: records that end in CR LF *)

Module crlf_delimited.

Definition CR : byte := x0d.

(** A strategy within the contract of spec 4.4 (a pure function of the
    chunk, with offsets inside it): a record ends behind the first carriage
    return that is followed, in the same chunk, by a line feed.  It is used
    to show what the reader does with a delimiter of more than one byte. *)
Fixpoint find_crlf (chunk : memory_block) : option nat :=
  match chunk with
  | [] => None
  | c1 :: rest =>
      match rest with
      | [] => None
      | c2 :: _ =>
          if Byte.eqb c1 CR && Byte.eqb c2 line_delimited.LF
          then Some 2
          else option_map S (find_crlf rest)
      end
  end.

Definition find_record_end (chunk : memory_block) (first_chunk : bool) : option nat :=
  find_crlf chunk.

End crlf_delimited.

(* ================================================================= *)
(** ** Inputs of the examples *)

Module examples.

(** Bytes of a text literal. *)
Definition bytes (s : string) : memory_block := list_byte_of_string s.

Definition LF : byte := line_delimited.LF.

Definition CR : byte := crlf_delimited.CR.

(** The chunks "ab", "c\nde", "f\n" of spec 8. *)
Definition three_chunks : list memory_block :=
  [bytes "ab"; bytes "c" ++ [LF] ++ bytes "de"; bytes "f" ++ [LF]].

(** A stream that gives an empty block after "ab", "cd" and then goes
    on with "e\n". *)
Definition resumed_chunks : list memory_block :=
  [bytes "ab"; bytes "cd"; []; bytes "e" ++ [LF]].

(** An input without a delimiter, in two chunks: "ab", "cd". *)
Definition unterminated_chunks : list memory_block :=
  [bytes "ab"; bytes "cd"].

(** The input "a\r\nb\r\n" in one chunk, and cut between CR and LF. *)
Definition crlf_one_chunk : list memory_block :=
  [bytes "a" ++ [CR; LF] ++ bytes "b" ++ [CR; LF]].

Definition crlf_two_chunks : list memory_block :=
  [bytes "a" ++ [CR]; [LF] ++ bytes "b" ++ [CR; LF]].

End examples.

(* ================================================================= *)
(** ** data and tape *)

(** The part of the [data] variant that the counting source produces: a
    64-bit integer, or a dictionary from field names to data. *)
Inductive data : Type :=
| data_int (i : Z)
| data_dict (entries : list (string * data)).

Module tape.

(** Modelled from the spec: the position tape is declared in [tape.h],
    which is not at hand.  Spec 3 and 6: an ordered sequence of values with
    a read cursor; [record(value)] appends, [read<T>()] reads the value
    under the cursor, fails when it is missing or not a [T], and moves the
    cursor forward. *)
Record t : Type := mk {
  storage_ : list data;
  iter_ : nat
}.

Definition record (tp : t) (d : data) : t :=
  {| storage_ := storage_ tp ++ [d]; iter_ := iter_ tp |}.

Definition read_int64 (tp : t) : result (Z * t) :=
  match nth_error (storage_ tp) (iter_ tp) with
  | Some (data_int i) => Ok (i, {| storage_ := storage_ tp; iter_ := S (iter_ tp) |})
  | _ => Throw tape_error
  end.

End tape.

(* ================================================================= *)
(** ** count_data_source.cc *)

Module count_data_source.

(** [std::int64_t] arithmetic: the result of [counter_++] brought back to
    the two's-complement range. *)
Definition wrap_int64 (z : Z) : Z :=
  ((z + 2 ^ 63) mod 2 ^ 64 - 2 ^ 63)%Z.

Record t : Type := mk {
  start_ : Z;
  counter_ : Z;
  field_name_ : option string
}.

(** Modelled from the spec: the constructor is defined in the header,
    which is not at hand; a counting source "starting at" [start] has its
    counter there (spec 8). *)
Definition create (start : Z) (field_name : option string) : t :=
  {| start_ := start; counter_ := start; field_name_ := field_name |}.

Definition post_increment (s : t) : t :=
  {| start_ := start_ s;
     counter_ := wrap_int64 (counter_ s + 1);
     field_name_ := field_name_ s |}.

(** [count_data_source::next] (lines 13-20).  [None] would be the
    end-of-data value [std::nullopt]. *)
Definition next (s : t) : option data * t :=
  match field_name_ s with
  | Some name => (Some (data_dict [(name, data_int (counter_ s))]), post_increment s)
  | None => (Some (data_int (counter_ s)), post_increment s)
  end.

(** [count_data_source::reset] (lines 22-26). *)
Definition reset (s : t) : t :=
  {| start_ := start_ s; counter_ := start_ s; field_name_ := field_name_ s |}.

(** [count_data_source::record_position] (lines 28-32). *)
Definition record_position (s : t) (tp : tape.t) : tape.t :=
  tape.record tp (data_int (counter_ s)).

(** [count_data_source::reload_position] (lines 34-38). *)
Definition reload_position (s : t) (tp : tape.t) : result (t * tape.t) :=
  rd <- tape.read_int64 tp ;;
  Ok ({| start_ := start_ s; counter_ := fst rd; field_name_ := field_name_ s |}, snd rd).

(** The first [n] results of calling [next] repeatedly, and the source
    afterwards. *)
Fixpoint produce (n : nat) (s : t) : list (option data) * t :=
  match n with
  | 0 => ([], s)
  | S n' =>
      let (d, s') := next s in
      let (ds, s'') := produce n' s' in
      (d :: ds, s'')
  end.

(** The value [next] makes of the counter value [i]: a dictionary with
    one entry under the field name when there is one, the bare integer
    otherwise. *)
Definition value_of (s : t) (i : Z) : data :=
  match field_name_ s with
  | Some name => data_dict [(name, data_int i)]
  | None => data_int i
  end.

End count_data_source.

(* ================================================================= *)
(** ** immutable_string.cc *)

Module immutable_string.

Record t : Type := mk { storage_ : memory_block }.

Definition view (s : t) : memory_block := storage_ s.

(** Modelled from the spec: [remove_prefix] is defined in the header,
    which is not at hand.  Spec 4.2: the zero-copy view of the string from
    byte [n] on. *)
Definition remove_prefix (s : t) (n : nat) : result t :=
  b <- memory.share_from (storage_ s) n ;;
  Ok (mk b).

Section Handler.

(** The handler is a callback with captured state: [H] is that state,
    [handler h part] the state after the call. *)
Variable H : Type.
Variable handler : H -> t -> H.

(** The [for] loop of [split(char, handler)] (lines 57-67).  [steps] is the
    number of iterations left, [s.size() - char_idx]. *)
Fixpoint split_loop (self : t) (separator : byte) (steps char_idx offset : nat) (h : H)
  : result (nat * H) :=
  match steps with
  | 0 => Ok (offset, h)
  | S steps' =>
      if Byte.eqb (nth char_idx (view self) x00) separator
      then
        h' <- (if negb (offset =? char_idx)
               then
                 part <- memory.share_slice (storage_ self) offset (char_idx - offset) ;;
                 Ok (handler h (mk part))
               else Ok h) ;;
        split_loop self separator steps' (S char_idx) (S char_idx) h'
      else split_loop self separator steps' (S char_idx) offset h
  end.

(** [immutable_string::split(char, handler)] (lines 49-71). *)
Definition split_with (self : t) (separator : byte) (h : H) : result H :=
  st <- split_loop self separator (memory.size (view self)) 0 0 h ;;
  if negb (fst st =? memory.size (view self))
  then
    part <- remove_prefix self (fst st) ;;
    Ok (handler (snd st) part)
  else Ok (snd st).

End Handler.

(** [immutable_string::split(char)] (lines 37-47): the handler appends to
    the output vector. *)
Definition split (self : t) (separator : byte) : result (list t) :=
  split_with (list t) (fun output part => output ++ [part]) self separator [].

(** *** The specification of splitting

    The runs between occurrences of the separator: [fields] cuts the bytes
    at every separator, so a string with [n] separators has [n + 1] fields,
    some of them possibly empty; [runs] keeps the non-empty ones. *)
Fixpoint fields (separator : byte) (s : memory_block) : list memory_block :=
  match s with
  | [] => [[]]
  | c :: rest =>
      if Byte.eqb c separator
      then [] :: fields separator rest
      else
        match fields separator rest with
        | [] => [[c]]
        | f :: fs => (c :: f) :: fs
        end
  end.

Definition runs (separator : byte) (s : memory_block) : list memory_block :=
  filter (fun f => negb (memory.empty f)) (fields separator s).

(** Putting fields together again, with one separator between neighbours. *)
Fixpoint join (separator : byte) (fs : list memory_block) : memory_block :=
  match fs with
  | [] => []
  | f :: fs' =>
      match fs' with
      | [] => f
      | _ :: _ => f ++ separator :: join separator fs'
      end
  end.

(** [run] put in front of the first field. *)
Definition prepend (run : memory_block) (fs : list memory_block) : list memory_block :=
  match fs with
  | [] => [run]
  | f :: fs' => (run ++ f) :: fs'
  end.

(** The loop of [split] told on lists, for the proofs: [run] is the bytes
    between [offset] and [char_idx], [rest] the bytes from [char_idx] on.
    It gives the parts handed to the handler inside the loop and the run
    that is open when the loop ends. *)
Fixpoint scan (separator : byte) (run rest : memory_block)
  : list memory_block * memory_block :=
  match rest with
  | [] => ([], run)
  | c :: rest' =>
      if Byte.eqb c separator
      then
        let (parts, last) := scan separator [] rest' in
        (if negb (memory.empty run) then run :: parts else parts, last)
      else scan separator (run ++ [c]) rest'
  end.

(** [immutable_string::copy_string] (lines 27-35): fresh storage of the
    size of the text, filled by [std::copy]. *)
Definition copy_string (s : memory_block) : result memory_block :=
  st <- memory.copy s (memory.allocate_memory (memory.size s)) 0 ;;
  Ok (fst st).

(** The constructor [immutable_string(std::string_view)] (lines 17-19). *)
Definition create (s : memory_block) : result t :=
  block <- copy_string s ;;
  Ok (mk block).

(** The number of separators in a string. *)
Definition count_separators (separator : byte) (s : memory_block) : nat :=
  length (filter (fun c => Byte.eqb c separator) s).

End immutable_string.

(* ================================================================= *)
(** ** sp_encoder.cc *)

Module sp_encoder.

(** What can go wrong in the encoder: [invalid_argument] is the
    [std::invalid_argument] of [operator()]; [tensor_error] is the refusal
    of [at::zeros] to make a tensor of negative size; [index_fault] stands
    for a write through the span outside the tensor's storage (undefined
    behaviour in C++). *)
Inductive failure : Type :=
| invalid_argument
| tensor_error
| index_fault.

Inductive attempt (A : Type) : Type :=
| Value (a : A)
| Fails (f : failure).

Arguments Value {A} a.
Arguments Fails {A} f.

Definition and_then {A B : Type} (m : attempt A) (k : A -> attempt B) : attempt B :=
  match m with
  | Value a => k a
  | Fails f => Fails f
  end.

(** [std::size_t] arithmetic is modulo 2^64. *)
Definition wrap_size (z : Z) : Z := (z mod 2 ^ 64)%Z.

(** [static_cast<std::int64_t>] of a [std::size_t]. *)
Definition to_int64 (z : Z) : Z :=
  if (z <? 2 ^ 63)%Z then z else (z - 2 ^ 64)%Z.

Definition increment (i : Z) : Z := wrap_size (i + 1).

Definition decrement (i : Z) : Z := wrap_size (i - 1).

Section Collaborators.

(** The types of ATen and sentencepiece that the encoder only passes on:
    devices, with the CPU device [at::kCPU] among them, and the floating
    point numbers of the sampling parameter. *)
Context {at_device : Type} {float : Type}.
Variable cpu : at_device.

(** [sp_encoder_options], by its accessors. *)
Record sp_encoder_options : Type := {
  prefix_tokens : list string;
  suffix_tokens : list string;
  enable_sampling : bool;
  nbest_size : Z;
  alpha : float;
  reverse : bool;
  device : option at_device;
  pin_memory : bool
}.

(** An [ImmutableSentencePieceText] is read through [pieces_size()] and
    [pieces(i).id()] only: it is the list of the ids of its pieces, each a
    [std::uint32_t]. *)
Definition sentence_piece_text : Type := list N.

(** [sp_processor]: the two ways to cut a sentence into pieces.  Sampling
    draws at random; what it draws is this function's value. *)
Record sp_processor : Type := {
  encode_pieces : immutable_string.t -> sentence_piece_text;
  sample_pieces : immutable_string.t -> Z -> float -> sentence_piece_text
}.

(** [sp_model], as far as the encoder uses it. *)
Record sp_model : Type := {
  processor_ : sp_processor;
  token_to_index : string -> Z
}.

(** A one-dimensional tensor of 64-bit integers: its elements and the
    device it lives on.  Pinning is a property of the host allocation and
    does not show in the elements; it is left out. *)
Record tensor : Type := {
  elements : list Z;
  placed_on : at_device
}.

(** The data members of [sp_encoder]. *)
Record t : Type := mk {
  model_ : sp_model;
  opts_ : sp_encoder_options;
  prefix_token_indices_ : list Z;
  suffix_token_indices_ : list Z
}.

(** The loops of the constructor (lines 62-66): each token's index is
    pushed to the back of the vector. *)
Definition push_indices (model : sp_model) (tokens : list string) : list Z :=
  fold_left (fun indices token => indices ++ [token_to_index model token]) tokens [].

(** [sp_encoder::sp_encoder] (lines 56-67). *)
Definition create (model : sp_model) (opts : sp_encoder_options) : t :=
  {| model_ := model;
     opts_ := opts;
     prefix_token_indices_ := push_indices model (prefix_tokens opts);
     suffix_token_indices_ := push_indices model (suffix_tokens opts) |}.

(** The data members of [encoder_op] (lines 45-51). *)
Record encoder_op : Type := {
  encoder_ : t;
  op_processor_ : sp_processor;
  sentence_ : immutable_string.t;
  spt_ : sentence_piece_text;
  extra_tokens_len_ : Z;
  seq_len_ : Z;
  tensor_ : tensor
}.

(** [encoder_op::encoder_op] (lines 99-105).  The default-constructed
    tensor holds nothing. *)
Definition new_op (encoder : t) (processor : sp_processor) (sentence : immutable_string.t)
  : encoder_op :=
  {| encoder_ := encoder;
     op_processor_ := processor;
     sentence_ := sentence;
     spt_ := [];
     extra_tokens_len_ :=
       wrap_size
         (wrap_size (0 + Z.of_nat (length (prefix_token_indices_ encoder)))
          + Z.of_nat (length (suffix_token_indices_ encoder)));
     seq_len_ := 0;
     tensor_ := {| elements := []; placed_on := cpu |} |}.

(** [encoder_op::encode_string] (lines 124-135). *)
Definition encode_string (op : encoder_op) : encoder_op :=
  let opts := opts_ (encoder_ op) in
  let spt :=
    if enable_sampling opts
    then sample_pieces (op_processor_ op) (sentence_ op) (nbest_size opts) (alpha opts)
    else encode_pieces (op_processor_ op) (sentence_ op) in
  {| encoder_ := encoder_ op;
     op_processor_ := op_processor_ op;
     sentence_ := sentence_ op;
     spt_ := spt;
     extra_tokens_len_ := extra_tokens_len_ op;
     seq_len_ := wrap_size (Z.of_nat (length spt) + extra_tokens_len_ op);
     tensor_ := tensor_ op |}.

(** [get_token_idx] (lines 89-95): the id of piece [idx], a
    [std::uint32_t], as a [std::int64_t]. *)
Definition get_token_idx (spt : sentence_piece_text) (idx : nat) : Z :=
  Z.of_N (nth idx spt 0%N).

(** [at::zeros({n}, ...)] on the CPU. *)
Definition zeros (n : Z) : attempt tensor :=
  if (n <? 0)%Z
  then Fails tensor_error
  else Value {| elements := repeat 0%Z (Z.to_nat n); placed_on := cpu |}.

(** [tensor_.to(device)]: the same elements on another device. *)
Definition to (tn : tensor) (d : at_device) : tensor :=
  {| elements := elements tn; placed_on := d |}.

(** [tensor_data[i] = x], through a span that does not check its index. *)
Definition store (tensor_data : list Z) (i : Z) (x : Z) : attempt (list Z) :=
  if ((0 <=? i) && (i <? Z.of_nat (length tensor_data)))%Z
  then Value (firstn (Z.to_nat i) tensor_data ++ x :: skipn (S (Z.to_nat i)) tensor_data)
  else Fails index_fault.

(** A range-based [for] over token indices, each stored at [i], which then
    moves by [move]: [i++] or [i--] (lines 149-150, 155-156, 160-161,
    166-167). *)
Fixpoint store_indices (move : Z -> Z) (indices : list Z) (tensor_data : list Z) (i : Z)
  : attempt (list Z * Z) :=
  match indices with
  | [] => Value (tensor_data, i)
  | idx :: indices' =>
      and_then (store tensor_data i idx)
        (fun tensor_data' => store_indices move indices' tensor_data' (move i))
  end.

(** The [for] loop over the pieces (lines 152-153, 163-164); [steps] is
    the number of iterations left, [pieces_size() - j]. *)
Fixpoint store_pieces (move : Z -> Z) (spt : sentence_piece_text) (steps j : nat)
  (tensor_data : list Z) (i : Z) : attempt (list Z * Z) :=
  match steps with
  | 0 => Value (tensor_data, i)
  | S steps' =>
      and_then (store tensor_data i (get_token_idx spt j))
        (fun tensor_data' => store_pieces move spt steps' (S j) tensor_data' (move i))
  end.

(** [encoder_op::fill_tensor] (lines 137-169). *)
Definition fill_tensor (op : encoder_op) : attempt encoder_op :=
  let move := if reverse (opts_ (encoder_ op)) then decrement else increment in
  let i := if reverse (opts_ (encoder_ op)) then wrap_size (seq_len_ op - 1) else 0%Z in
  and_then (store_indices move (prefix_token_indices_ (encoder_ op))
              (elements (tensor_ op)) i)
    (fun st1 =>
       and_then (store_pieces move (spt_ op) (length (spt_ op)) 0 (fst st1) (snd st1))
         (fun st2 =>
            and_then (store_indices move (suffix_token_indices_ (encoder_ op))
                        (fst st2) (snd st2))
              (fun st3 =>
                 Value {| encoder_ := encoder_ op;
                          op_processor_ := op_processor_ op;
                          sentence_ := sentence_ op;
                          spt_ := spt_ op;
                          extra_tokens_len_ := extra_tokens_len_ op;
                          seq_len_ := seq_len_ op;
                          tensor_ := {| elements := fst st3;
                                        placed_on := placed_on (tensor_ op) |} |}))).

(** [encoder_op::run] (lines 107-122). *)
Definition run (op : encoder_op) : attempt tensor :=
  let op1 := encode_string op in
  and_then (zeros (to_int64 (seq_len_ op1)))
    (fun tn =>
       and_then (fill_tensor
                   {| encoder_ := encoder_ op1;
                      op_processor_ := op_processor_ op1;
                      sentence_ := sentence_ op1;
                      spt_ := spt_ op1;
                      extra_tokens_len_ := extra_tokens_len_ op1;
                      seq_len_ := seq_len_ op1;
                      tensor_ := tn |})
         (fun op2 =>
            match device (opts_ (encoder_ op2)) with
            | Some d => Value (to (tensor_ op2) d)
            | None => Value (tensor_ op2)
            end)).

(** [sp_encoder::encode] (lines 78-84). *)
Definition encode (encoder : t) (sentence : immutable_string.t) : attempt tensor :=
  run (new_op encoder (processor_ (model_ encoder)) sentence).

(** The part of the [data] variant that [operator()] tells apart: a
    string, a tensor, or anything else. *)
Inductive value : Type :=
| value_string (s : immutable_string.t)
| value_tensor (tn : tensor)
| value_other (d : data).

(** [sp_encoder::operator()] (lines 69-76). *)
Definition call (encoder : t) (d : value) : attempt value :=
  match d with
  | value_string s =>
      and_then (encode encoder s) (fun tn => Value (value_tensor tn))
  | _ => Fails invalid_argument
  end.

(** The pieces the processor gives for a sentence under the options. *)
Definition pieces_for (encoder : t) (sentence : immutable_string.t) : sentence_piece_text :=
  if enable_sampling (opts_ encoder)
  then sample_pieces (processor_ (model_ encoder)) sentence
         (nbest_size (opts_ encoder)) (alpha (opts_ encoder))
  else encode_pieces (processor_ (model_ encoder)) sentence.

(** The token indices of a sentence in reading order: prefix tokens,
    pieces, suffix tokens. *)
Definition token_sequence (encoder : t) (sentence : immutable_string.t) : list Z :=
  map (token_to_index (model_ encoder)) (prefix_tokens (opts_ encoder))
  ++ map Z.of_N (pieces_for encoder sentence)
  ++ map (token_to_index (model_ encoder)) (suffix_tokens (opts_ encoder)).

End Collaborators.

End sp_encoder.

(* ================================================================= *)
(** ** A small encoder for the examples *)

Module toy_encoder.

(** One piece per byte, with the byte's value as id; a token's index is
    its length.  There is one device, and the sampling parameter is not a
    number at all. *)
Definition processor : @sp_encoder.sp_processor unit :=
  {| sp_encoder.encode_pieces := fun s => map Byte.to_N (immutable_string.view s);
     sp_encoder.sample_pieces := fun s _ _ => map Byte.to_N (immutable_string.view s) |}.

Definition model : @sp_encoder.sp_model unit :=
  {| sp_encoder.processor_ := processor;
     sp_encoder.token_to_index := fun token => Z.of_nat (String.length token) |}.

Definition opts (reverse : bool) : @sp_encoder.sp_encoder_options unit unit :=
  {| sp_encoder.prefix_tokens := ["<s>"%string];
     sp_encoder.suffix_tokens := ["</s>"%string];
     sp_encoder.enable_sampling := false;
     sp_encoder.nbest_size := 1;
     sp_encoder.alpha := tt;
     sp_encoder.reverse := reverse;
     sp_encoder.device := None;
     sp_encoder.pin_memory := false |}.

End toy_encoder.

(* ================================================================= *)
(** ** Relations between reader states *)

(** Two readers that agree on the stream and on the chunks they hold.  They
    may differ in [record_length_] and [record_end_offset_], which
    [reset] leaves as they are. *)
Definition same_buffers (r1 r2 : record_reader.t) : Prop :=
  record_reader.stream_ r1 = record_reader.stream_ r2
  /\ record_reader.current_chunk_ r1 = record_reader.current_chunk_ r2
  /\ record_reader.previous_chunks_ r1 = record_reader.previous_chunks_ r2.

(** Two calls that end the same way, with the same value or error, in
    readers with the same buffers. *)
Definition same_outcome {A : Type} (o1 o2 : record_reader.outcome A) : Prop :=
  match o1, o2 with
  | record_reader.Returns a1 r1, record_reader.Returns a2 r2 =>
      a1 = a2 /\ same_buffers r1 r2
  | record_reader.Throws e1 r1, record_reader.Throws e2 r2 =>
      e1 = e2 /\ same_buffers r1 r2
  | _, _ => False
  end.

(** The reader a call leaves behind. *)
Definition state_after {A : Type} (o : record_reader.outcome A) : record_reader.t :=
  match o with
  | record_reader.Returns _ r => r
  | record_reader.Throws _ r => r
  end.

(** A record that ends with the delimiter and holds no other one. *)
Definition terminated (delimiter : byte) (record : memory_block) : Prop :=
  exists body : memory_block, record = body ++ [delimiter] /\ ~ In delimiter body.

(* ================================================================= *)
(** * Properties *)

(** ** Memory blocks *)

Lemma empty_true_iff (b : memory_block) : memory.empty b = true <-> b = [].
Proof. destruct b; simpl; split; congruence. Qed.

Lemma empty_false_iff (b : memory_block) : memory.empty b = false <-> b <> [].
Proof. destruct b; simpl; split; congruence. Qed.

Lemma empty_length (b : memory_block) : memory.empty b = true <-> length b = 0.
Proof. destruct b; simpl; split; congruence. Qed.

Lemma share_first_ok (b : memory_block) (n : nat) :
  n <= length b -> memory.share_first b n = Ok (firstn n b).
Proof.
  intros Hn. unfold memory.share_first, memory.share_slice, memory.size. simpl.
  destruct (Nat.leb_spec n (length b)); [reflexivity | lia].
Qed.

Lemma share_from_ok (b : memory_block) (n : nat) :
  n <= length b -> memory.share_from b n = Ok (skipn n b).
Proof.
  intros Hn. unfold memory.share_from, memory.share_slice, memory.size.
  destruct (Nat.leb_spec (n + (length b - n)) (length b)); [| lia].
  rewrite firstn_all2; [reflexivity |]. rewrite length_skipn. lia.
Qed.

Lemma share_first_inv (b rec : memory_block) (n : nat) :
  memory.share_first b n = Ok rec -> n <= length b /\ rec = firstn n b.
Proof.
  unfold memory.share_first, memory.share_slice, memory.size. simpl.
  destruct (Nat.leb_spec n (length b)); intros E; inversion E; auto.
Qed.

Lemma share_from_inv (b tl : memory_block) (n : nat) :
  memory.share_from b n = Ok tl -> n <= length b /\ tl = skipn n b.
Proof.
  intros E. destruct (Nat.le_gt_cases n (length b)) as [Hn | Hn].
  - rewrite (share_from_ok _ _ Hn) in E. inversion E. auto.
  - unfold memory.share_from, memory.share_slice, memory.size in E.
    destruct (Nat.leb_spec (n + (length b - n)) (length b)); [lia | discriminate].
Qed.

Lemma copy_ok (src buf : memory_block) (iter : nat) :
  iter + length src <= length buf ->
  memory.copy src buf iter
  = Ok (firstn iter buf ++ src ++ skipn (iter + length src) buf, iter + length src).
Proof.
  intros Hn. unfold memory.copy, memory.size.
  destruct (Nat.leb_spec (iter + length src) (length buf)); [reflexivity | lia].
Qed.

Lemma copy_inv (src buf buf' : memory_block) (iter iter' : nat) :
  memory.copy src buf iter = Ok (buf', iter') ->
  iter + length src <= length buf /\ length buf' = length buf /\ iter' = iter + length src.
Proof.
  unfold memory.copy, memory.size.
  destruct (Nat.leb_spec (iter + length src) (length buf)); intros E; inversion E.
  repeat split; auto.
  rewrite !length_app, length_firstn, length_skipn. lia.
Qed.

Lemma copy_hole (src pre mid post : memory_block) :
  length mid = length src ->
  memory.copy src (pre ++ mid ++ post) (length pre)
  = Ok (pre ++ src ++ post, length pre + length src).
Proof.
  intros Hm. rewrite copy_ok by (rewrite !length_app; lia).
  rewrite firstn_app, firstn_all, Nat.sub_diag. simpl. rewrite app_nil_r.
  rewrite skipn_app, skipn_all2 by lia. simpl.
  replace (length pre + length src - length pre) with (length mid) by lia.
  rewrite skipn_app, skipn_all, Nat.sub_diag. reflexivity.
Qed.

(** ** record_reader: copying a split record *)

Lemma copy_chunks_hole (chunks : list memory_block) :
  forall pre mid post : memory_block,
    length mid = length (concat chunks) ->
    record_reader.copy_chunks chunks (pre ++ mid ++ post) (length pre)
    = Ok (pre ++ concat chunks ++ post, length pre + length (concat chunks)).
Proof.
  induction chunks as [| block chunks IH]; intros pre mid post Hm; simpl in *.
  - destruct mid; [| discriminate]. simpl. rewrite Nat.add_0_r. reflexivity.
  - rewrite length_app in Hm.
    rewrite <- (firstn_skipn (length block) mid), <- app_assoc.
    rewrite copy_hole by (rewrite length_firstn; lia).
    simpl. rewrite (app_assoc pre block).
    replace (length pre + length block) with (length (pre ++ block))
      by apply length_app.
    rewrite IH by (rewrite length_skipn; lia).
    rewrite <- !app_assoc, !length_app. f_equal. f_equal. lia.
Qed.

Lemma copy_chunks_length (chunks : list memory_block) :
  forall (buf buf' : memory_block) (iter iter' : nat),
    record_reader.copy_chunks chunks buf iter = Ok (buf', iter') ->
    length buf' = length buf.
Proof.
  induction chunks as [| block chunks IH]; intros buf buf' iter iter' E; simpl in E.
  - inversion E. reflexivity.
  - destruct (memory.copy block buf iter) as [[buf1 iter1] |] eqn:E1;
      simpl in E; [| discriminate].
    apply copy_inv in E1. apply IH in E. lia.
Qed.

Lemma copy_split_record_ok (r : record_reader.t) :
  record_reader.record_length_ r
  = length (concat (record_reader.previous_chunks_ r)) + record_reader.record_end_offset_ r ->
  record_reader.record_end_offset_ r <= length (record_reader.current_chunk_ r) ->
  record_reader.copy_split_record r
  = Ok (concat (record_reader.previous_chunks_ r)
        ++ firstn (record_reader.record_end_offset_ r) (record_reader.current_chunk_ r)).
Proof.
  intros Hlen Hoff. unfold record_reader.copy_split_record, memory.allocate_memory.
  rewrite Hlen, repeat_app.
  rewrite <- (app_nil_l (repeat x00 _ ++ _)).
  replace (0) with (length (A := byte) []) at 1 by reflexivity.
  rewrite copy_chunks_hole by apply repeat_length. simpl.
  unfold memory.size.
  destruct (Nat.leb_spec (record_reader.record_end_offset_ r)
              (length (record_reader.current_chunk_ r))); [| lia].
  rewrite <- (app_nil_r (repeat x00 (record_reader.record_end_offset_ r))).
  rewrite copy_hole by (rewrite repeat_length, length_firstn; lia).
  simpl. rewrite app_nil_r. reflexivity.
Qed.

Lemma copy_split_record_length (r : record_reader.t) (rec : memory_block) :
  record_reader.copy_split_record r = Ok rec ->
  length rec = record_reader.record_length_ r.
Proof.
  unfold record_reader.copy_split_record. intros E.
  destruct (record_reader.copy_chunks _ _ _) as [[buf1 iter1] |] eqn:E1;
    simpl in E; [| discriminate].
  apply copy_chunks_length in E1.
  destruct (_ <=? _); [| discriminate].
  destruct (memory.copy _ _ _) as [[buf2 iter2] |] eqn:E2; simpl in E; [| discriminate].
  apply copy_inv in E2. inversion E; subst.
  unfold memory.allocate_memory in E1. rewrite repeat_length in E1. lia.
Qed.

Lemma extract_record_length (r : record_reader.t) (rec : memory_block) :
  record_reader.extract_record r = Ok rec ->
  length rec = record_reader.record_length_ r.
Proof.
  unfold record_reader.extract_record.
  destruct (record_reader.previous_chunks_ r).
  - intros E. apply share_first_inv in E. destruct E as [Hle ->].
    rewrite length_firstn. lia.
  - apply copy_split_record_length.
Qed.

(** ** record_reader: the loading loop, for any boundary strategy *)

Lemma snoc_cases (A : Type) (prev prev1 taken : list A) (cur cur1 : A) :
  prev1 ++ [cur1] = prev ++ cur :: taken ->
  (taken = [] /\ prev1 = prev /\ cur1 = cur)
  \/ (exists taken', taken = taken' ++ [cur1] /\ prev1 = prev ++ cur :: taken').
Proof.
  intros E. destruct taken as [| c taken].
  - left. apply app_inj_tail in E. tauto.
  - right. destruct (exists_last (l := c :: taken)) as [taken' [x Ex]]; [discriminate |].
    rewrite Ex in E. exists taken'.
    change (prev ++ cur :: taken' ++ [x]) with (prev ++ (cur :: taken') ++ [x]) in E.
    rewrite app_assoc in E. apply app_inj_tail in E. destruct E as [-> ->]. auto.
Qed.

Section AnyStrategy.

Variable find_record_end : memory_block -> bool -> option nat.


(** The loop, one iteration unfolded, with the call of
    [stream_->read_chunk()] spelled out: the match on the pending chunks in
    [load_loop] is that call. *)
Lemma load_loop_read_chunk (first_chunk : bool) (r : record_reader.t) :
  record_reader.load_loop find_record_end
    (byte_stream.pending_ (record_reader.stream_ r)) first_chunk r
  = match find_record_end (record_reader.current_chunk_ r) first_chunk with
    | Some record_end_offset =>
        record_reader.Returns true
          {| record_reader.stream_ := record_reader.stream_ r;
             record_reader.current_chunk_ := record_reader.current_chunk_ r;
             record_reader.previous_chunks_ := record_reader.previous_chunks_ r;
             record_reader.record_length_ :=
               record_reader.record_length_ r + record_end_offset;
             record_reader.record_end_offset_ := record_end_offset |}
    | None =>
        let (next_chunk, s') := byte_stream.read_chunk (record_reader.stream_ r) in
        if memory.empty next_chunk
        then
          if memory.empty (record_reader.current_chunk_ r)
          then
            record_reader.Returns false
              {| record_reader.stream_ := s';
                 record_reader.current_chunk_ := record_reader.current_chunk_ r;
                 record_reader.previous_chunks_ := record_reader.previous_chunks_ r;
                 record_reader.record_length_ := record_reader.record_length_ r;
                 record_reader.record_end_offset_ := record_reader.record_end_offset_ r |}
          else
            record_reader.Throws
              (record_error (memory.size (record_reader.current_chunk_ r)))
              {| record_reader.stream_ := s';
                 record_reader.current_chunk_ := record_reader.current_chunk_ r;
                 record_reader.previous_chunks_ := record_reader.previous_chunks_ r;
                 record_reader.record_length_ := record_reader.record_length_ r;
                 record_reader.record_end_offset_ := record_reader.record_end_offset_ r |}
        else
          record_reader.load_loop find_record_end (byte_stream.pending_ s') false
            {| record_reader.stream_ := s';
               record_reader.current_chunk_ := next_chunk;
               record_reader.previous_chunks_ :=
                 record_reader.previous_chunks_ r ++ [record_reader.current_chunk_ r];
               record_reader.record_length_ :=
                 record_reader.record_length_ r
                 + memory.size (record_reader.current_chunk_ r);
               record_reader.record_end_offset_ := record_reader.record_end_offset_ r |}
    end.
Proof.
  destruct r as [[chunks pending] cur prev rl reo].
  destruct pending as [| c pending]; simpl;
    destruct (find_record_end cur first_chunk); reflexivity.
Qed.

(** When the loop finds a boundary it has read the chunks [taken]; they
    were not empty, the last of them is the current chunk, and the others,
    after the chunk it started with, are the previous chunks. *)
Lemma load_loop_true (pending : list memory_block) :
  forall (first_chunk : bool) (r r1 : record_reader.t),
    record_reader.load_loop find_record_end pending first_chunk r = record_reader.Returns true r1 ->
    exists taken : list memory_block,
      pending = taken ++ byte_stream.pending_ (record_reader.stream_ r1)
      /\ byte_stream.chunks_ (record_reader.stream_ r1)
         = byte_stream.chunks_ (record_reader.stream_ r)
      /\ Forall (fun c => c <> []) taken
      /\ record_reader.previous_chunks_ r1 ++ [record_reader.current_chunk_ r1]
         = record_reader.previous_chunks_ r ++ record_reader.current_chunk_ r :: taken
      /\ record_reader.record_length_ r1
         + length (concat (record_reader.previous_chunks_ r))
         = record_reader.record_length_ r
           + length (concat (record_reader.previous_chunks_ r1))
           + record_reader.record_end_offset_ r1
      /\ find_record_end (record_reader.current_chunk_ r1)
           (record_reader.flag_after first_chunk taken)
         = Some (record_reader.record_end_offset_ r1).
Proof.
  induction pending as [| c pending IH]; intros first_chunk r r1 E; simpl in E.
  - destruct (find_record_end _ _) as [k |] eqn:Ef.
    + inversion E; subst; clear E. exists []. simpl. repeat split; auto. lia.
    + destruct (memory.empty (record_reader.current_chunk_ r)); discriminate.
  - destruct (find_record_end _ _) as [k |] eqn:Ef.
    + inversion E; subst; clear E. exists []. simpl. repeat split; auto. lia.
    + destruct (memory.empty c) eqn:Ec.
      * destruct (memory.empty (record_reader.current_chunk_ r)); discriminate.
      * apply IH in E. simpl in E.
        destruct E as (taken & Hp & Hc & Hne & Hprev & Hlen & Hf).
        exists (c :: taken). simpl. repeat split; auto.
        -- congruence.
        -- constructor; [apply empty_false_iff; exact Ec | exact Hne].
        -- rewrite Hprev, <- app_assoc. reflexivity.
        -- rewrite concat_app, length_app in Hlen. simpl in Hlen.
           unfold memory.size in Hlen. rewrite app_nil_r in Hlen. lia.
        -- destruct taken; exact Hf.
Qed.

(** The loop returns [false] in its first iteration or not at all. *)
Lemma load_loop_false (pending : list memory_block) :
  forall (first_chunk : bool) (r r1 : record_reader.t),
    record_reader.load_loop find_record_end pending first_chunk r = record_reader.Returns false r1 ->
    find_record_end (record_reader.current_chunk_ r) first_chunk = None
    /\ record_reader.current_chunk_ r = []
    /\ hd [] pending = []
    /\ r1 = record_reader.set_pending r (tl pending).
Proof.
  induction pending as [| c pending IH]; intros first_chunk r r1 E; simpl in E.
  - destruct (find_record_end _ _) as [k |] eqn:Ef; [discriminate |].
    destruct (memory.empty (record_reader.current_chunk_ r)) eqn:Ecur; [| discriminate].
    inversion E. apply empty_true_iff in Ecur. auto.
  - destruct (find_record_end _ _) as [k |] eqn:Ef; [discriminate |].
    destruct (memory.empty c) eqn:Ec.
    + destruct (memory.empty (record_reader.current_chunk_ r)) eqn:Ecur; [| discriminate].
      inversion E. apply empty_true_iff in Ecur, Ec. auto.
    + apply IH in E. simpl in E. destruct E as (_ & Hc & _).
      subst c. discriminate.
Qed.

(** When the loop throws, the stream has ended (an empty block was read)
    after the chunks [taken]; the number in the error is the size of the
    current chunk alone. *)
Lemma load_loop_throws (pending : list memory_block) :
  forall (first_chunk : bool) (r r1 : record_reader.t) (e : error),
    record_reader.load_loop find_record_end pending first_chunk r = record_reader.Throws e r1 ->
    exists taken rest : list memory_block,
      pending = taken ++ rest
      /\ hd [] rest = []
      /\ byte_stream.pending_ (record_reader.stream_ r1) = tl rest
      /\ Forall (fun c => c <> []) taken
      /\ record_reader.previous_chunks_ r1 ++ [record_reader.current_chunk_ r1]
         = record_reader.previous_chunks_ r ++ record_reader.current_chunk_ r :: taken
      /\ record_reader.current_chunk_ r1 <> []
      /\ e = record_error (length (record_reader.current_chunk_ r1)).
Proof.
  induction pending as [| c pending IH]; intros first_chunk r r1 e E; simpl in E.
  - destruct (find_record_end _ _) as [k |] eqn:Ef; [discriminate |].
    destruct (memory.empty (record_reader.current_chunk_ r)) eqn:Ecur; [discriminate |].
    inversion E; subst; clear E. exists [], []. simpl.
    apply empty_false_iff in Ecur. repeat split; auto.
  - destruct (find_record_end _ _) as [k |] eqn:Ef; [discriminate |].
    destruct (memory.empty c) eqn:Ec.
    + destruct (memory.empty (record_reader.current_chunk_ r)) eqn:Ecur; [discriminate |].
      inversion E; subst; clear E. exists [], (c :: pending). simpl.
      apply empty_false_iff in Ecur. apply empty_true_iff in Ec.
      repeat split; auto.
    + apply IH in E. simpl in E.
      destruct E as (taken & rest & Hp & Hr & Hs & Hne & Hprev & Hcur & He).
      exists (c :: taken), rest. simpl. repeat split; auto.
      * congruence.
      * constructor; [apply empty_false_iff; exact Ec | exact Hne].
      * rewrite Hprev, <- app_assoc. reflexivity.
Qed.

(** ** record_reader: next and drain, for any boundary strategy *)

Lemma next_returns_inv (r r2 : record_reader.t) (rec : memory_block) :
  record_reader.next find_record_end r = record_reader.Returns rec r2 ->
  (rec = []
   /\ record_reader.load_next_record find_record_end r = record_reader.Returns false r2)
  \/ (exists r1 : record_reader.t,
        record_reader.load_next_record find_record_end r = record_reader.Returns true r1
        /\ record_reader.extract_record r1 = Ok rec
        /\ record_reader.move_to_next_record r1 = Ok r2).
Proof.
  unfold record_reader.next.
  destruct (record_reader.load_next_record find_record_end r) as [[|] r1 | e r1];
    [| intros E; inversion E; auto | discriminate].
  destruct (record_reader.extract_record r1) as [rec' | e] eqn:Ex; [| discriminate].
  destruct (record_reader.move_to_next_record r1) as [r2' | e] eqn:Em; [| discriminate].
  intros E; inversion E; subst. right. exists r1. auto.
Qed.

Lemma move_to_next_record_inv (r1 r2 : record_reader.t) :
  record_reader.move_to_next_record r1 = Ok r2 ->
  record_reader.record_end_offset_ r1 <= length (record_reader.current_chunk_ r1)
  /\ r2 = record_reader.moved r1.
Proof.
  unfold record_reader.move_to_next_record. intros E.
  destruct (memory.share_from _ _) as [tl |] eqn:Es; simpl in E; [| discriminate].
  apply share_from_inv in Es. destruct Es as [Hle ->]. inversion E. auto.
Qed.

(** A call of [next] that returns a record leaves less to consume. *)
Lemma next_measure (r r2 : record_reader.t) (rec : memory_block) :
  record_reader.next find_record_end r = record_reader.Returns rec r2 ->
  rec <> [] ->
  record_reader.measure r2 < record_reader.measure r.
Proof.
  intros E Hrec. apply next_returns_inv in E.
  destruct E as [[-> _] | (r1 & El & Ex & Em)]; [congruence |].
  unfold record_reader.load_next_record in El. apply load_loop_true in El.
  simpl in El. destruct El as (taken & Hp & _ & _ & Hprev & Hlen & _).
  apply extract_record_length in Ex. apply move_to_next_record_inv in Em.
  destruct Em as [Hoff ->]. unfold record_reader.measure, memory.size. simpl.
  rewrite Hp, concat_app, !length_app, length_skipn.
  apply snoc_cases in Hprev.
  destruct Hprev as [(-> & Hp1 & Hc1) | (taken' & -> & Hp1)].
  - rewrite Hp1, Hc1 in *. simpl.
    assert (length rec <> 0) by (destruct rec; simpl; congruence). lia.
  - rewrite concat_app, !length_app. simpl. rewrite app_nil_r. lia.
Qed.

Lemma drain_fuel_irrelevant (fuel1 : nat) :
  forall (fuel2 : nat) (r : record_reader.t),
    record_reader.measure r < fuel1 ->
    record_reader.measure r < fuel2 ->
    record_reader.drain_fuel find_record_end fuel1 r
    = record_reader.drain_fuel find_record_end fuel2 r.
Proof.
  induction fuel1 as [| fuel1 IH]; intros fuel2 r H1 H2; [lia |].
  destruct fuel2 as [| fuel2]; [lia |]. simpl.
  destruct (record_reader.next find_record_end r) as [rec r2 | e r2] eqn:En;
    [| reflexivity].
  destruct (memory.empty rec) eqn:Erec; [reflexivity |].
  apply empty_false_iff in Erec. pose proof (next_measure _ _ _ En Erec) as Hm.
  rewrite (IH fuel2 r2) by lia. reflexivity.
Qed.

(** [drain] is the consumer's loop: its defining equation, free of fuel. *)
Lemma drain_unfold (r : record_reader.t) :
  record_reader.drain find_record_end r
  = match record_reader.next find_record_end r with
    | record_reader.Throws e r' => ([], record_reader.failed e, r')
    | record_reader.Returns record r' =>
        if memory.empty record
        then ([], record_reader.end_of_data, r')
        else
          let '(records, how, r'') := record_reader.drain find_record_end r' in
          (record :: records, how, r'')
    end.
Proof.
  unfold record_reader.drain at 1. simpl.
  destruct (record_reader.next find_record_end r) as [rec r2 | e r2] eqn:En;
    [| reflexivity].
  destruct (memory.empty rec) eqn:Erec; [reflexivity |].
  apply empty_false_iff in Erec. pose proof (next_measure _ _ _ En Erec) as Hm.
  unfold record_reader.drain.
  rewrite (drain_fuel_irrelevant (record_reader.measure r)
             (S (record_reader.measure r2)) r2) by lia.
  reflexivity.
Qed.

(** The loop always comes to an end: [drain] never runs out of fuel. *)
Lemma drain_fuel_enough (fuel : nat) :
  forall r : record_reader.t,
    record_reader.measure r < fuel ->
    record_reader.ending_of (record_reader.drain_fuel find_record_end fuel r)
    <> record_reader.out_of_fuel.
Proof.
  induction fuel as [| fuel IH]; intros r Hm; [lia |]. simpl.
  destruct (record_reader.next find_record_end r) as [rec r2 | e r2] eqn:En;
    [| discriminate].
  destruct (memory.empty rec) eqn:Erec; [discriminate |].
  apply empty_false_iff in Erec. pose proof (next_measure _ _ _ En Erec) as Hm2.
  specialize (IH r2). 
  destruct (record_reader.drain_fuel find_record_end fuel r2) as [[recs how] r3].
  unfold record_reader.ending_of in *. simpl in *. apply IH. lia.
Qed.

Lemma drain_terminates (r : record_reader.t) :
  record_reader.ending_of (record_reader.drain find_record_end r)
  <> record_reader.out_of_fuel.
Proof. apply drain_fuel_enough. lia. Qed.

(** ** record_reader: what a call of next does to a clean reader *)

Lemma concat_snoc (prev : list memory_block) (cur : memory_block) :
  concat (prev ++ [cur]) = concat prev ++ cur.
Proof. rewrite concat_app. simpl. rewrite app_nil_r. reflexivity. Qed.

(** A boundary was found: the record is assembled and the reader moves on. *)
Lemma next_found (r r1 : record_reader.t) :
  record_reader.within_chunk find_record_end ->
  record_reader.clean r ->
  record_reader.load_next_record find_record_end r = record_reader.Returns true r1 ->
  record_reader.record_length_ r1
  = length (concat (record_reader.previous_chunks_ r1)) + record_reader.record_end_offset_ r1
  /\ record_reader.record_end_offset_ r1 <= length (record_reader.current_chunk_ r1)
  /\ record_reader.extract_record r1
     = Ok (concat (record_reader.previous_chunks_ r1)
           ++ firstn (record_reader.record_end_offset_ r1) (record_reader.current_chunk_ r1))
  /\ record_reader.next find_record_end r
     = record_reader.Returns
         (concat (record_reader.previous_chunks_ r1)
          ++ firstn (record_reader.record_end_offset_ r1) (record_reader.current_chunk_ r1))
         (record_reader.moved r1).
Proof.
  intros Hwithin Hclean El.
  assert (Hl := El). unfold record_reader.load_next_record in Hl.
  apply load_loop_true in Hl. simpl in Hl.
  destruct Hl as (taken & _ & _ & _ & _ & Hlen & Hf).
  rewrite Hclean in Hlen. simpl in Hlen. apply Hwithin in Hf.
  assert (Hrl : record_reader.record_length_ r1
                = length (concat (record_reader.previous_chunks_ r1))
                  + record_reader.record_end_offset_ r1) by lia.
  assert (Hex : record_reader.extract_record r1
                = Ok (concat (record_reader.previous_chunks_ r1)
                      ++ firstn (record_reader.record_end_offset_ r1)
                           (record_reader.current_chunk_ r1))).
  { unfold record_reader.extract_record.
    destruct (record_reader.previous_chunks_ r1) as [| p ps] eqn:Eprev.
    - simpl in *. rewrite Hrl. apply share_first_ok. exact Hf.
    - rewrite <- Eprev in *. apply copy_split_record_ok; assumption. }
  repeat split; auto.
  unfold record_reader.next. rewrite El, Hex.
  unfold record_reader.move_to_next_record.
  rewrite share_from_ok by exact Hf. reflexivity.
Qed.

(** The bytes are conserved by a call that returns a record. *)
Lemma next_found_unread (r r1 : record_reader.t) :
  record_reader.clean r ->
  record_reader.load_next_record find_record_end r = record_reader.Returns true r1 ->
  (concat (record_reader.previous_chunks_ r1)
   ++ firstn (record_reader.record_end_offset_ r1) (record_reader.current_chunk_ r1))
  ++ record_reader.unread (record_reader.moved r1)
  = record_reader.unread r.
Proof.
  intros Hclean El. unfold record_reader.load_next_record in El.
  apply load_loop_true in El. simpl in El.
  destruct El as (taken & Hp & _ & _ & Hprev & _ & _).
  unfold record_reader.unread. simpl. rewrite Hclean in *. simpl in *.
  rewrite Hp, concat_app, <- !app_assoc.
  rewrite (app_assoc (firstn _ _)), firstn_skipn.
  rewrite !app_assoc. f_equal.
  rewrite <- concat_snoc, Hprev. simpl. reflexivity.
Qed.

(** End of data: nothing was buffered and the stream gave an empty block. *)
Lemma next_end_of_data (r r1 : record_reader.t) :
  record_reader.load_next_record find_record_end r = record_reader.Returns false r1 ->
  record_reader.next find_record_end r = record_reader.Returns [] r1
  /\ find_record_end (record_reader.current_chunk_ r) true = None
  /\ record_reader.current_chunk_ r = []
  /\ fst (byte_stream.read_chunk (record_reader.stream_ r)) = []
  /\ record_reader.current_chunk_ r1 = []
  /\ record_reader.previous_chunks_ r1 = record_reader.previous_chunks_ r
  /\ byte_stream.pending_ (record_reader.stream_ r1)
     = tl (byte_stream.pending_ (record_reader.stream_ r)).
Proof.
  intros El. split.
  - unfold record_reader.next. rewrite El. reflexivity.
  - unfold record_reader.load_next_record in El. apply load_loop_false in El.
    simpl in El. destruct El as (Hf & Hc & Hh & ->). simpl.
    repeat split; auto.
    unfold byte_stream.read_chunk.
    destruct (byte_stream.pending_ (record_reader.stream_ r)); simpl in *; auto.
Qed.

(** Truncation: the stream ended behind a partial record. *)
Lemma next_truncated (r r1 : record_reader.t) (e : error) :
  record_reader.load_next_record find_record_end r = record_reader.Throws e r1 ->
  record_reader.next find_record_end r = record_reader.Throws e r1
  /\ e = record_error (length (record_reader.current_chunk_ r1))
  /\ record_reader.current_chunk_ r1 <> []
  /\ exists taken rest : list memory_block,
       byte_stream.pending_ (record_reader.stream_ r) = taken ++ rest
       /\ hd [] rest = []
       /\ byte_stream.pending_ (record_reader.stream_ r1) = tl rest
       /\ Forall (fun c => c <> []) taken
       /\ concat (record_reader.previous_chunks_ r1) ++ record_reader.current_chunk_ r1
          = concat (record_reader.previous_chunks_ r) ++ record_reader.current_chunk_ r
            ++ concat taken.
Proof.
  intros El. split.
  - unfold record_reader.next. rewrite El. reflexivity.
  - unfold record_reader.load_next_record in El. apply load_loop_throws in El.
    simpl in El. destruct El as (taken & rest & Hp & Hr & Hs & Hne & Hprev & Hcur & He).
    repeat split; auto. exists taken, rest. repeat split; auto.
    rewrite <- concat_snoc, Hprev, concat_app. reflexivity.
Qed.

(** ** record_reader: draining conserves the bytes *)

Lemma concat_tl_hd_nil (l : list memory_block) :
  hd [] l = [] -> concat (tl l) = concat l.
Proof. destruct l as [| c l]; simpl; [reflexivity | intros ->; reflexivity]. Qed.

Lemma nonempty_hd_nil (l : list memory_block) :
  Forall (fun c => c <> []) l -> hd [] l = [] -> l = [].
Proof.
  destruct l as [| c l]; [reflexivity |]. simpl. intros Hne Hc.
  inversion Hne; subst. congruence.
Qed.

(** The records drained so far, followed by what the reader still holds
    or can read, are the bytes the reader started with. *)
Lemma drain_fuel_account (fuel : nat) :
  record_reader.within_chunk find_record_end ->
  forall r : record_reader.t,
    record_reader.clean r ->
    concat (record_reader.records_of (record_reader.drain_fuel find_record_end fuel r))
    ++ record_reader.unread
         (record_reader.reader_of (record_reader.drain_fuel find_record_end fuel r))
    = record_reader.unread r.
Proof.
  intros Hwithin. induction fuel as [| fuel IH]; intros r Hclean; [reflexivity |].
  simpl. destruct (record_reader.load_next_record find_record_end r)
    as [[|] r1 | e r1] eqn:El.
  - destruct (next_found r r1 Hwithin Hclean El) as (_ & _ & _ & ->).
    pose proof (next_found_unread r r1 Hclean El) as Hu.
    destruct (memory.empty _) eqn:Erec.
    + apply empty_true_iff in Erec. rewrite Erec in Hu. exact Hu.
    + specialize (IH (record_reader.moved r1) eq_refl).
      destruct (record_reader.drain_fuel find_record_end fuel (record_reader.moved r1))
        as [[recs how] r3].
      unfold record_reader.records_of, record_reader.reader_of in *. simpl in *.
      rewrite <- Hu, <- IH, <- !app_assoc. reflexivity.
  - destruct (next_end_of_data r r1 El) as (-> & _ & Hc & Hh & Hc1 & Hp1 & Hs1).
    simpl. unfold record_reader.records_of, record_reader.reader_of,
      record_reader.unread. simpl.
    rewrite Hc, Hc1, Hp1, Hs1. f_equal. f_equal. apply concat_tl_hd_nil.
    unfold byte_stream.read_chunk in Hh.
    destruct (byte_stream.pending_ (record_reader.stream_ r)); simpl in *; auto.
  - destruct (next_truncated r r1 e El) as (-> & _ & _ & taken & rest & Hp & Hh & Hs & _ & Hb).
    unfold record_reader.records_of, record_reader.reader_of,
      record_reader.unread. simpl.
    rewrite Hs, Hp, concat_app, (concat_tl_hd_nil rest Hh).
    rewrite app_assoc, Hb, <- !app_assoc. reflexivity.
Qed.

(** How a drain over non-empty chunks ends: at the end of data nothing is
    left anywhere; otherwise a [record_error] is raised, the stream is
    exhausted, and a partial record is buffered. *)
Lemma drain_fuel_ending (fuel : nat) :
  record_reader.within_chunk find_record_end ->
  record_reader.positive_offsets find_record_end ->
  forall r : record_reader.t,
    record_reader.clean r ->
    Forall (fun c => c <> []) (byte_stream.pending_ (record_reader.stream_ r)) ->
    match record_reader.ending_of (record_reader.drain_fuel find_record_end fuel r) with
    | record_reader.end_of_data =>
        record_reader.unread
          (record_reader.reader_of (record_reader.drain_fuel find_record_end fuel r)) = []
    | record_reader.failed e =>
        exists n : nat,
          e = record_error n
          /\ record_reader.current_chunk_
               (record_reader.reader_of (record_reader.drain_fuel find_record_end fuel r))
             <> []
          /\ byte_stream.pending_
               (record_reader.stream_
                  (record_reader.reader_of (record_reader.drain_fuel find_record_end fuel r)))
             = []
    | record_reader.out_of_fuel => True
    end.
Proof.
  intros Hwithin Hpos. induction fuel as [| fuel IH]; intros r Hclean Hne; [exact I |].
  simpl. destruct (record_reader.load_next_record find_record_end r)
    as [[|] r1 | e r1] eqn:El.
  - destruct (next_found r r1 Hwithin Hclean El) as (Hrl & _ & Hex & ->).
    assert (Hl := El). unfold record_reader.load_next_record in Hl.
    apply load_loop_true in Hl. simpl in Hl.
    destruct Hl as (taken & Hp & _ & _ & _ & _ & Hf). apply Hpos in Hf.
    apply extract_record_length in Hex.
    destruct (memory.empty _) eqn:Erec.
    + apply empty_length in Erec. lia.
    + assert (Hne1 : Forall (fun c => c <> [])
                       (byte_stream.pending_
                          (record_reader.stream_ (record_reader.moved r1)))).
      { simpl. rewrite Hp in Hne. apply Forall_app in Hne. tauto. }
      specialize (IH (record_reader.moved r1) eq_refl Hne1).
      destruct (record_reader.drain_fuel find_record_end fuel (record_reader.moved r1))
        as [[recs how] r3].
      exact IH.
  - destruct (next_end_of_data r r1 El) as (-> & _ & _ & Hh & Hc1 & Hp1 & Hs1).
    unfold record_reader.ending_of, record_reader.reader_of, record_reader.unread.
    simpl. rewrite Hc1, Hp1, Hs1, Hclean.
    unfold byte_stream.read_chunk in Hh.
    destruct (byte_stream.pending_ (record_reader.stream_ r)) as [| c l];
      [reflexivity |].
    simpl in Hh. inversion Hne; subst. congruence.
  - destruct (next_truncated r r1 e El)
      as (-> & -> & Hcur & taken & rest & Hp & Hh & Hs & _ & _).
    unfold record_reader.ending_of, record_reader.reader_of. simpl.
    eexists. repeat split; auto.
    rewrite Hs. rewrite Hp in Hne. apply Forall_app in Hne.
    rewrite (nonempty_hd_nil rest) by tauto. reflexivity.
Qed.

(** Chunks in which the loop looked for a boundary and found none. *)
Lemma load_loop_examined (pending : list memory_block) :
  forall (first_chunk : bool) (r : record_reader.t),
    match record_reader.load_loop find_record_end pending first_chunk r with
    | record_reader.Returns true r1 =>
        exists added : list memory_block,
          record_reader.previous_chunks_ r1 = record_reader.previous_chunks_ r ++ added
          /\ Forall (fun c => exists f, find_record_end c f = None) added
    | record_reader.Returns false r1 => True
    | record_reader.Throws e r1 =>
        exists added : list memory_block,
          record_reader.previous_chunks_ r1 = record_reader.previous_chunks_ r ++ added
          /\ Forall (fun c => exists f, find_record_end c f = None)
               (added ++ [record_reader.current_chunk_ r1])
    end.
Proof.
  induction pending as [| c pending IH]; intros first_chunk r; simpl.
  - destruct (find_record_end _ _) as [k |] eqn:Ef.
    + exists []. simpl. rewrite app_nil_r. auto.
    + destruct (memory.empty (record_reader.current_chunk_ r)); [exact I |].
      exists []. simpl. rewrite app_nil_r. split; [reflexivity |].
      constructor; [exists first_chunk; exact Ef | constructor].
  - destruct (find_record_end _ _) as [k |] eqn:Ef.
    + exists []. simpl. rewrite app_nil_r. auto.
    + destruct (memory.empty c).
      * destruct (memory.empty (record_reader.current_chunk_ r)); [exact I |].
        exists []. simpl. rewrite app_nil_r. split; [reflexivity |].
        constructor; [exists first_chunk; exact Ef | constructor].
      * match goal with
        | |- context [record_reader.load_loop _ _ _ ?r'] =>
            specialize (IH false r'); set (r0 := r') in *
        end.
        destruct (record_reader.load_loop find_record_end pending false r0)
          as [[|] r1 | e r1]; auto; subst r0; simpl in IH;
          destruct IH as (added & Hprev & Hall);
          exists (record_reader.current_chunk_ r :: added);
          (split; [rewrite Hprev, <- app_assoc; reflexivity |]);
          simpl; constructor; auto; exists first_chunk; exact Ef.
Qed.

(** ** Claims about record_reader that hold for every boundary strategy *)

(** C4.  For a reader that holds no previous chunks on entry and a strategy
    that keeps its offsets within the chunk: when [load_next_record] finds
    a boundary, [next] returns the bytes of the previous chunks, in order,
    followed by the first [record_end_offset_] bytes of the current chunk.
    If there are no previous chunks, the record is [share_first] of the
    current chunk at that offset; otherwise it is the buffer filled by
    [copy_split_record], whose length is [record_length_], the total length
    of the record. *)
Theorem extract_record_bytes (r r1 : record_reader.t) :
  record_reader.within_chunk find_record_end ->
  record_reader.clean r ->
  record_reader.load_next_record find_record_end r = record_reader.Returns true r1 ->
  record_reader.next find_record_end r
  = record_reader.Returns
      (concat (record_reader.previous_chunks_ r1)
       ++ firstn (record_reader.record_end_offset_ r1) (record_reader.current_chunk_ r1))
      (record_reader.moved r1)
  /\ (record_reader.previous_chunks_ r1 = [] ->
      record_reader.extract_record r1
      = memory.share_first (record_reader.current_chunk_ r1)
          (record_reader.record_end_offset_ r1)
      /\ record_reader.extract_record r1
         = Ok (firstn (record_reader.record_end_offset_ r1)
                 (record_reader.current_chunk_ r1)))
  /\ (record_reader.previous_chunks_ r1 <> [] ->
      record_reader.extract_record r1 = record_reader.copy_split_record r1
      /\ record_reader.copy_split_record r1
         = Ok (concat (record_reader.previous_chunks_ r1)
               ++ firstn (record_reader.record_end_offset_ r1)
                    (record_reader.current_chunk_ r1))
      /\ length (concat (record_reader.previous_chunks_ r1)
                 ++ firstn (record_reader.record_end_offset_ r1)
                      (record_reader.current_chunk_ r1))
         = record_reader.record_length_ r1).
Proof.
  intros Hwithin Hclean El.
  destruct (next_found r r1 Hwithin Hclean El) as (Hrl & Hoff & Hex & Hnext).
  split; [exact Hnext |]. split.
  - intros Hnil. rewrite Hnil in *. simpl in *. split; [| exact Hex].
    unfold record_reader.extract_record. rewrite Hnil, Hrl. reflexivity.
  - intros Hcons. assert (Hext : record_reader.extract_record r1
                                 = record_reader.copy_split_record r1).
    { unfold record_reader.extract_record.
      destruct (record_reader.previous_chunks_ r1); [congruence | reflexivity]. }
    split; [exact Hext |]. split; [rewrite <- Hext; exact Hex |].
    rewrite length_app, length_firstn, Hrl. lia.
Qed.

(** C5, as amended.  For a strategy whose offsets [k] satisfy
    [1 <= k <= chunk length] and an input cut into non-empty chunks: the
    records of a full drain, concatenated, followed by the bytes of the
    partial record that is still buffered when the drain stops, are the
    input.  When the drain stops at the end of data the records alone are
    the input; the only other way for it to stop is a [record_error] with a
    partial record buffered. *)
Theorem drain_concat_is_input (chunks : list memory_block) :
  record_reader.within_chunk find_record_end ->
  record_reader.positive_offsets find_record_end ->
  Forall (fun c => c <> []) chunks ->
  concat (record_reader.records_of
            (record_reader.drain find_record_end
               (record_reader.create (byte_stream.open chunks))))
  ++ concat (record_reader.previous_chunks_
               (record_reader.reader_of
                  (record_reader.drain find_record_end
                     (record_reader.create (byte_stream.open chunks)))))
  ++ record_reader.current_chunk_
       (record_reader.reader_of
          (record_reader.drain find_record_end
             (record_reader.create (byte_stream.open chunks))))
  = concat chunks
  /\ (record_reader.ending_of
        (record_reader.drain find_record_end
           (record_reader.create (byte_stream.open chunks)))
      = record_reader.end_of_data ->
      concat (record_reader.records_of
                (record_reader.drain find_record_end
                   (record_reader.create (byte_stream.open chunks))))
      = concat chunks)
  /\ (record_reader.ending_of
        (record_reader.drain find_record_end
           (record_reader.create (byte_stream.open chunks)))
      <> record_reader.end_of_data ->
      exists n : nat,
        record_reader.ending_of
          (record_reader.drain find_record_end
             (record_reader.create (byte_stream.open chunks)))
        = record_reader.failed (record_error n)
        /\ record_reader.current_chunk_
             (record_reader.reader_of
                (record_reader.drain find_record_end
                   (record_reader.create (byte_stream.open chunks))))
           <> []).
Proof.
  intros Hwithin Hpos Hne.
  set (r := record_reader.create (byte_stream.open chunks)).
  pose proof (drain_terminates r) as Hterm.
  pose proof (drain_fuel_account (S (record_reader.measure r)) Hwithin r eq_refl) as Hacc.
  pose proof (drain_fuel_ending (S (record_reader.measure r)) Hwithin Hpos r eq_refl Hne)
    as Hend.
  fold (record_reader.drain find_record_end r) in Hacc, Hend.
  destruct (record_reader.drain find_record_end r) as [[recs how] r3].
  unfold record_reader.records_of, record_reader.reader_of, record_reader.ending_of,
    record_reader.unread in *.
  simpl in *. destruct how as [| e |]; [| | congruence].
  - rewrite Hend, app_nil_r in Hacc.
    apply app_eq_nil in Hend. destruct Hend as [Hp Hend].
    apply app_eq_nil in Hend. destruct Hend as [Hc _].
    rewrite Hp, Hc, app_nil_r. repeat split; auto. congruence.
  - destruct Hend as (n & -> & Hcur & Hs). rewrite Hs in Hacc. simpl in Hacc.
    rewrite app_nil_r in Hacc. repeat split; auto; [discriminate |].
    intros _. exists n. auto.
Qed.

End AnyStrategy.

(* ================================================================= *)
(** ** The line-delimited strategy *)

Section Delimiter.

Variable delimiter : byte.

Lemma find_delimiter_bounds (chunk : memory_block) :
  forall k : nat,
    line_delimited.find_delimiter delimiter chunk = Some k ->
    1 <= k <= length chunk.
Proof.
  induction chunk as [| c chunk IH]; intros k E; simpl in E; [discriminate |].
  destruct (Byte.eqb c delimiter).
  - inversion E. simpl. lia.
  - destruct (line_delimited.find_delimiter delimiter chunk) as [k' |];
      simpl in E; [| discriminate].
    inversion E. specialize (IH k' eq_refl). simpl. lia.
Qed.

Lemma delimiter_within_chunk :
  record_reader.within_chunk (line_delimited.find_record_end delimiter).
Proof.
  intros chunk first_chunk k E. apply find_delimiter_bounds in E. lia.
Qed.

Lemma delimiter_positive_offsets :
  record_reader.positive_offsets (line_delimited.find_record_end delimiter).
Proof.
  intros chunk first_chunk k E. apply find_delimiter_bounds in E. lia.
Qed.

Lemma find_delimiter_app_some (a b : memory_block) (k : nat) :
  line_delimited.find_delimiter delimiter a = Some k ->
  line_delimited.find_delimiter delimiter (a ++ b) = Some k.
Proof.
  revert k. induction a as [| c a IH]; intros k E; simpl in *; [discriminate |].
  destruct (Byte.eqb c delimiter); [exact E |].
  destruct (line_delimited.find_delimiter delimiter a) as [k' |];
    simpl in E; [| discriminate].
  rewrite (IH k' eq_refl). exact E.
Qed.

Lemma find_delimiter_app_none (a b : memory_block) :
  line_delimited.find_delimiter delimiter a = None ->
  line_delimited.find_delimiter delimiter (a ++ b)
  = option_map (Nat.add (length a)) (line_delimited.find_delimiter delimiter b).
Proof.
  induction a as [| c a IH]; intros E; simpl in *.
  - destruct (line_delimited.find_delimiter delimiter b); reflexivity.
  - destruct (Byte.eqb c delimiter); [discriminate |].
    destruct (line_delimited.find_delimiter delimiter a); [discriminate |].
    rewrite IH by reflexivity.
    destruct (line_delimited.find_delimiter delimiter b); reflexivity.
Qed.

Lemma find_delimiter_concat_none (l : list memory_block) :
  Forall (fun c => line_delimited.find_delimiter delimiter c = None) l ->
  line_delimited.find_delimiter delimiter (concat l) = None.
Proof.
  induction 1 as [| c l Hc _ IH]; simpl; [reflexivity |].
  rewrite find_delimiter_app_none, IH by exact Hc. reflexivity.
Qed.

Lemma split_lines_none (s : memory_block) :
  forall acc : memory_block,
    line_delimited.find_delimiter delimiter s = None ->
    line_delimited.split_lines delimiter acc s = ([], acc ++ s).
Proof.
  induction s as [| c s IH]; intros acc E; simpl in *.
  - rewrite app_nil_r. reflexivity.
  - destruct (Byte.eqb c delimiter); [discriminate |].
    destruct (line_delimited.find_delimiter delimiter s); [discriminate |].
    rewrite IH, <- app_assoc by reflexivity. reflexivity.
Qed.

Lemma split_lines_found (s : memory_block) :
  forall (acc : memory_block) (k : nat),
    line_delimited.find_delimiter delimiter s = Some k ->
    line_delimited.split_lines delimiter acc s
    = ((acc ++ firstn k s) :: line_delimited.lines delimiter (skipn k s),
       line_delimited.partial_line delimiter (skipn k s)).
Proof.
  unfold line_delimited.lines, line_delimited.partial_line.
  induction s as [| c s IH]; intros acc k E; simpl in *; [discriminate |].
  destruct (Byte.eqb c delimiter).
  - inversion E; subst. simpl.
    destruct (line_delimited.split_lines delimiter [] s). reflexivity.
  - destruct (line_delimited.find_delimiter delimiter s) as [k' |];
      simpl in E; [| discriminate].
    inversion E; subst. simpl. rewrite (IH _ k' eq_refl), <- app_assoc. reflexivity.
Qed.

Lemma firstn_length_app (A : Type) (a b : list A) : firstn (length a) (a ++ b) = a.
Proof. induction a as [| x a IH]; simpl; [reflexivity | rewrite IH; reflexivity]. Qed.

Lemma skipn_length_app (A : Type) (a b : list A) : skipn (length a) (a ++ b) = b.
Proof. induction a as [| x a IH]; simpl; [reflexivity | exact IH]. Qed.

Lemma examined_no_delimiter (l : list memory_block) :
  Forall (fun c => exists f, line_delimited.find_record_end delimiter c f = None) l ->
  line_delimited.find_delimiter delimiter (concat l) = None.
Proof.
  intros Hall. apply find_delimiter_concat_none.
  apply (Forall_impl _ (P := fun c => exists f,
                               line_delimited.find_record_end delimiter c f = None));
    [| exact Hall].
  intros c [f Hf]. exact Hf.
Qed.

(** Draining a clean reader over non-empty chunks gives the records of the
    bytes it holds and reads, and ends at the end of data exactly when no
    bytes are left behind the last delimiter. *)
Lemma drain_fuel_lines (fuel : nat) :
  forall r : record_reader.t,
    record_reader.clean r ->
    Forall (fun c => c <> []) (byte_stream.pending_ (record_reader.stream_ r)) ->
    record_reader.measure r < fuel ->
    record_reader.records_of
      (record_reader.drain_fuel (line_delimited.find_record_end delimiter) fuel r)
    = line_delimited.lines delimiter (record_reader.unread r)
    /\ match record_reader.ending_of
               (record_reader.drain_fuel (line_delimited.find_record_end delimiter) fuel r)
       with
       | record_reader.end_of_data =>
           line_delimited.partial_line delimiter (record_reader.unread r) = []
       | record_reader.failed e =>
           line_delimited.partial_line delimiter (record_reader.unread r) <> []
       | record_reader.out_of_fuel => False
       end.
Proof.
  induction fuel as [| fuel IH]; intros r Hclean Hne Hm; [lia |].
  simpl.
  destruct (record_reader.load_next_record (line_delimited.find_record_end delimiter) r)
    as [[|] r1 | e r1] eqn:El.
  - destruct (next_found _ r r1 delimiter_within_chunk Hclean El)
      as (Hrl & Hoff & Hex & Hnext).
    pose proof (next_found_unread _ r r1 Hclean El) as Hu.
    assert (Hl := El). unfold record_reader.load_next_record in Hl.
    pose proof (load_loop_examined (line_delimited.find_record_end delimiter)
                  (byte_stream.pending_ (record_reader.stream_ r)) true
                  {| record_reader.stream_ := record_reader.stream_ r;
                     record_reader.current_chunk_ := record_reader.current_chunk_ r;
                     record_reader.previous_chunks_ := record_reader.previous_chunks_ r;
                     record_reader.record_length_ := 0;
                     record_reader.record_end_offset_ := record_reader.record_end_offset_ r |})
      as Hexam.
    rewrite Hl in Hexam. simpl in Hexam. destruct Hexam as (added & Hadded & Hnone).
    rewrite Hclean in Hadded. simpl in Hadded.
    apply load_loop_true in Hl. simpl in Hl.
    destruct Hl as (taken & Hp & _ & _ & _ & _ & Hf).
    unfold line_delimited.find_record_end in Hf.
    apply examined_no_delimiter in Hnone. rewrite <- Hadded in Hnone.
    set (rec := concat (record_reader.previous_chunks_ r1)
                ++ firstn (record_reader.record_end_offset_ r1)
                     (record_reader.current_chunk_ r1)) in *.
    assert (Hlen : length rec
                   = length (concat (record_reader.previous_chunks_ r1))
                     + record_reader.record_end_offset_ r1).
    { subst rec. rewrite length_app, length_firstn. lia. }
    assert (Hk : line_delimited.find_delimiter delimiter (record_reader.unread r)
                 = Some (length rec)).
    { rewrite <- Hu. subst rec. unfold record_reader.unread. simpl.
      rewrite <- !app_assoc, (app_assoc (firstn _ _)), firstn_skipn.
      rewrite find_delimiter_app_none by exact Hnone.
      rewrite (find_delimiter_app_some _ _ _ Hf). simpl. f_equal.
      rewrite length_app, length_firstn. lia. }
    pose proof (find_delimiter_bounds _ _ Hf) as Hpos.
    rewrite Hnext.
    destruct (memory.empty rec) eqn:Erec; [apply empty_length in Erec; lia |].
    apply empty_false_iff in Erec.
    pose proof (next_measure _ _ _ _ Hnext Erec) as Hm1.
    assert (Hne1 : Forall (fun c => c <> [])
                     (byte_stream.pending_
                        (record_reader.stream_ (record_reader.moved r1)))).
    { simpl. rewrite Hp in Hne. apply Forall_app in Hne. tauto. }
    destruct (IH (record_reader.moved r1) eq_refl Hne1 ltac:(lia)) as [IHr IHe].
    destruct (record_reader.drain_fuel _ fuel (record_reader.moved r1))
      as [[recs how] r3].
    unfold record_reader.records_of, record_reader.ending_of in *. simpl in *.
    unfold line_delimited.lines, line_delimited.partial_line.
    rewrite (split_lines_found _ _ _ Hk). simpl.
    rewrite <- Hu, firstn_length_app, skipn_length_app, IHr. auto.
  - destruct (next_end_of_data _ r r1 El) as (-> & _ & Hc & Hh & _).
    unfold record_reader.records_of, record_reader.ending_of, record_reader.unread.
    simpl. rewrite Hclean, Hc.
    unfold byte_stream.read_chunk in Hh.
    destruct (byte_stream.pending_ (record_reader.stream_ r)) as [| c l]; simpl in *.
    + auto.
    + inversion Hne; subst. congruence.
  - assert (Hl := El). unfold record_reader.load_next_record in Hl.
    pose proof (load_loop_examined (line_delimited.find_record_end delimiter)
                  (byte_stream.pending_ (record_reader.stream_ r)) true
                  {| record_reader.stream_ := record_reader.stream_ r;
                     record_reader.current_chunk_ := record_reader.current_chunk_ r;
                     record_reader.previous_chunks_ := record_reader.previous_chunks_ r;
                     record_reader.record_length_ := 0;
                     record_reader.record_end_offset_ := record_reader.record_end_offset_ r |})
      as Hexam.
    rewrite Hl in Hexam. simpl in Hexam. destruct Hexam as (added & Hadded & Hnone).
    rewrite Hclean in Hadded. simpl in Hadded. rewrite <- Hadded in Hnone.
    apply examined_no_delimiter in Hnone. rewrite concat_snoc in Hnone.
    destruct (next_truncated _ r r1 e El)
      as (-> & _ & Hcur & taken & rest & Hp & Hh & _ & _ & Hb).
    rewrite Hp in Hne. apply Forall_app in Hne. destruct Hne as [_ Hrest].
    apply nonempty_hd_nil in Hrest; [| exact Hh]. subst rest.
    rewrite app_nil_r in Hp.
    unfold record_reader.records_of, record_reader.ending_of, record_reader.unread.
    simpl. rewrite Hp, <- Hb.
    unfold line_delimited.lines, line_delimited.partial_line.
    rewrite (split_lines_none _ _ Hnone). simpl. split; [reflexivity |].
    intros Habs. apply app_eq_nil in Habs. tauto.
Qed.

(** The records of a full drain are the lines of the unfragmented input. *)
Lemma drain_lines (chunks : list memory_block) :
  Forall (fun c => c <> []) chunks ->
  record_reader.records_of
    (record_reader.drain (line_delimited.find_record_end delimiter)
       (record_reader.create (byte_stream.open chunks)))
  = line_delimited.lines delimiter (concat chunks)
  /\ (record_reader.ending_of
        (record_reader.drain (line_delimited.find_record_end delimiter)
           (record_reader.create (byte_stream.open chunks)))
      = record_reader.end_of_data
      <-> line_delimited.partial_line delimiter (concat chunks) = []).
Proof.
  intros Hne. set (r := record_reader.create (byte_stream.open chunks)).
  destruct (drain_fuel_lines (S (record_reader.measure r)) r eq_refl Hne ltac:(lia))
    as [Hrec Hend].
  fold (record_reader.drain (line_delimited.find_record_end delimiter) r) in Hrec, Hend.
  change (record_reader.unread r) with (concat chunks) in Hrec, Hend.
  split; [exact Hrec |].
  destruct (record_reader.ending_of _); split; intros H; try tauto; try discriminate.
Qed.

(** C2, as amended.  With the line-delimited strategy, for any delimiter
    byte: two sequences of non-empty chunks with the same concatenation
    drain to the same sequence of records, and one drain ends at the end of
    data exactly when the other does. *)
Theorem rechunking_is_invisible (chunks1 chunks2 : list memory_block) :
  Forall (fun c => c <> []) chunks1 ->
  Forall (fun c => c <> []) chunks2 ->
  concat chunks1 = concat chunks2 ->
  record_reader.records_of
    (record_reader.drain (line_delimited.find_record_end delimiter)
       (record_reader.create (byte_stream.open chunks1)))
  = record_reader.records_of
      (record_reader.drain (line_delimited.find_record_end delimiter)
         (record_reader.create (byte_stream.open chunks2)))
  /\ (record_reader.ending_of
        (record_reader.drain (line_delimited.find_record_end delimiter)
           (record_reader.create (byte_stream.open chunks1)))
      = record_reader.end_of_data
      <-> record_reader.ending_of
            (record_reader.drain (line_delimited.find_record_end delimiter)
               (record_reader.create (byte_stream.open chunks2)))
          = record_reader.end_of_data).
Proof.
  intros Hne1 Hne2 Hcat.
  destruct (drain_lines chunks1 Hne1) as [Hr1 He1].
  destruct (drain_lines chunks2 Hne2) as [Hr2 He2].
  rewrite Hr1, Hr2, He1, He2, Hcat. split; [reflexivity | tauto].
Qed.

(** ** End of data *)

Lemma load_next_record_false_iff
  (find_record_end : memory_block -> bool -> option nat) (r : record_reader.t) :
  (exists r1 : record_reader.t,
      record_reader.load_next_record find_record_end r = record_reader.Returns false r1)
  <-> (find_record_end (record_reader.current_chunk_ r) true = None
       /\ fst (byte_stream.read_chunk (record_reader.stream_ r)) = []
       /\ record_reader.current_chunk_ r = []).
Proof.
  split.
  - intros [r1 El]. pose proof (next_end_of_data _ r r1 El). tauto.
  - intros (Hf & Hread & Hcur). unfold record_reader.load_next_record.
    unfold byte_stream.read_chunk in Hread.
    destruct (byte_stream.pending_ (record_reader.stream_ r)) as [| c l];
      simpl in *; rewrite Hf, ?Hread, Hcur; simpl; eexists; reflexivity.
Qed.

(** With positive offsets a record takes at least one byte. *)
Lemma positive_record_not_empty
  (find_record_end : memory_block -> bool -> option nat)
  (r r1 : record_reader.t) (rec : memory_block) :
  record_reader.positive_offsets find_record_end ->
  record_reader.load_next_record find_record_end r = record_reader.Returns true r1 ->
  record_reader.extract_record r1 = Ok rec ->
  rec <> [].
Proof.
  intros Hpos El Hex. apply extract_record_length in Hex.
  unfold record_reader.load_next_record in El. apply load_loop_true in El.
  simpl in El. destruct El as (taken & _ & _ & _ & Hprev & Hlen & Hf).
  apply Hpos in Hf.
  assert (length (concat (record_reader.previous_chunks_ r))
          <= length (concat (record_reader.previous_chunks_ r1))).
  { apply snoc_cases in Hprev.
    destruct Hprev as [(_ & -> & _) | (taken' & _ & ->)]; [lia |].
    rewrite concat_app, length_app. lia. }
  intros ->. simpl in Hex. lia.
Qed.

(** C6, as amended.  For every boundary strategy whose offsets [k] satisfy
    [1 <= k <= chunk length], and a reader in any state: [next] returns
    the empty block, the end-of-sequence value, if and only if the chunk
    pulled from the stream is empty and the current chunk is empty.  That
    is exactly when [load_next_record] takes its exit with [false]; and
    when the stream ends with nothing buffered, [next] does not throw: a
    clean end between records is never reported as a [record_error]. *)
Theorem next_signals_end_iff
  (find_record_end : memory_block -> bool -> option nat) (r : record_reader.t) :
  record_reader.within_chunk find_record_end ->
  record_reader.positive_offsets find_record_end ->
  ((exists r2 : record_reader.t,
       record_reader.next find_record_end r = record_reader.Returns [] r2)
   <-> (fst (byte_stream.read_chunk (record_reader.stream_ r)) = []
        /\ record_reader.current_chunk_ r = []))
  /\ ((exists r1 : record_reader.t,
          record_reader.load_next_record find_record_end r
          = record_reader.Returns false r1)
      <-> (fst (byte_stream.read_chunk (record_reader.stream_ r)) = []
           /\ record_reader.current_chunk_ r = []))
  /\ (fst (byte_stream.read_chunk (record_reader.stream_ r)) = [] ->
      record_reader.current_chunk_ r = [] ->
      forall (e : error) (r1 : record_reader.t),
        record_reader.next find_record_end r <> record_reader.Throws e r1).
Proof.
  intros Hwithin Hpos.
  assert (Hnone : record_reader.current_chunk_ r = [] ->
                  find_record_end (record_reader.current_chunk_ r) true = None).
  { intros Hcur. rewrite Hcur.
    destruct (find_record_end [] true) as [k |] eqn:Ef; [| reflexivity].
    pose proof (Hwithin _ _ _ Ef) as H1. pose proof (Hpos _ _ _ Ef) as H2.
    simpl in H1. lia. }
  assert (Hload : (exists r1 : record_reader.t,
                      record_reader.load_next_record find_record_end r
                      = record_reader.Returns false r1)
                  <-> (fst (byte_stream.read_chunk (record_reader.stream_ r)) = []
                       /\ record_reader.current_chunk_ r = [])).
  { rewrite load_next_record_false_iff. split.
    - tauto.
    - intros [Hread Hcur]. auto. }
  assert (Hback : fst (byte_stream.read_chunk (record_reader.stream_ r)) = [] ->
                  record_reader.current_chunk_ r = [] ->
                  exists r2 : record_reader.t,
                    record_reader.next find_record_end r = record_reader.Returns [] r2).
  { intros Hread Hcur. destruct (proj2 Hload (conj Hread Hcur)) as [r1 El].
    exists r1. apply (next_end_of_data _ r r1 El). }
  split; [| split; [exact Hload |]].
  - split.
    + intros [r2 En]. apply next_returns_inv in En.
      destruct En as [[_ El] | (r1 & El & Hex & _)].
      * apply (proj1 Hload). exists r2. exact El.
      * exfalso. exact (positive_record_not_empty _ r r1 [] Hpos El Hex eq_refl).
    + intros [Hread Hcur]. exact (Hback Hread Hcur).
  - intros Hread Hcur e r1 En. destruct (Hback Hread Hcur) as [r2 Hr].
    rewrite Hr in En. discriminate.
Qed.

End Delimiter.

(* ================================================================= *)
(** ** record_reader on concrete inputs *)

Lemma crlf_within_chunk : record_reader.within_chunk crlf_delimited.find_record_end.
Proof.
  unfold record_reader.within_chunk, crlf_delimited.find_record_end.
  induction chunk as [| c1 chunk IH]; intros _ k E; simpl in E; [discriminate |].
  destruct chunk as [| c2 chunk]; [discriminate |].
  destruct (Byte.eqb c1 crlf_delimited.CR && Byte.eqb c2 line_delimited.LF).
  - inversion E. simpl. lia.
  - destruct (crlf_delimited.find_crlf (c2 :: chunk)) as [k' |] eqn:Ek;
      simpl in E; [| discriminate].
    inversion E. specialize (IH true k' eq_refl). simpl in *. lia.
Qed.

(** C1, at the input on which the code departs from it.  The stream
    "ab", "cd" ends inside a record of four bytes; [next] throws a
    [record_error] whose number is 2, the size of the current chunk. *)
Theorem truncated_count_is_current_chunk_size :
  exists r1 : record_reader.t,
    record_reader.next line_delimited.find_line_end
      (record_reader.create (byte_stream.open examples.unterminated_chunks))
    = record_reader.Throws (record_error 2) r1
    /\ length (concat (record_reader.previous_chunks_ r1)
               ++ record_reader.current_chunk_ r1) = 4
    /\ length (record_reader.current_chunk_ r1) = 2.
Proof. eexists. split; [vm_compute; reflexivity | split; reflexivity]. Qed.

(** C2 fails for a strategy that needs two bytes to see a boundary: the
    input "a\r\nb\r\n" gives two records when it comes in one chunk, and
    one record when the chunks are cut between CR and LF. *)
Lemma rechunking_is_visible_crlf :
  record_reader.within_chunk crlf_delimited.find_record_end
  /\ Forall (fun c => c <> []) examples.crlf_one_chunk
  /\ Forall (fun c => c <> []) examples.crlf_two_chunks
  /\ concat examples.crlf_one_chunk = concat examples.crlf_two_chunks
  /\ record_reader.records_of
       (record_reader.drain crlf_delimited.find_record_end
          (record_reader.create (byte_stream.open examples.crlf_one_chunk)))
     = [examples.bytes "a" ++ [examples.CR; examples.LF];
        examples.bytes "b" ++ [examples.CR; examples.LF]]
  /\ record_reader.records_of
       (record_reader.drain crlf_delimited.find_record_end
          (record_reader.create (byte_stream.open examples.crlf_two_chunks)))
     = [examples.bytes "a" ++ [examples.CR; examples.LF]
        ++ examples.bytes "b" ++ [examples.CR; examples.LF]]
  /\ record_reader.records_of
       (record_reader.drain crlf_delimited.find_record_end
          (record_reader.create (byte_stream.open examples.crlf_one_chunk)))
     <> record_reader.records_of
          (record_reader.drain crlf_delimited.find_record_end
             (record_reader.create (byte_stream.open examples.crlf_two_chunks))).
Proof.
  split; [exact crlf_within_chunk |].
  split; [repeat constructor; discriminate |].
  split; [repeat constructor; discriminate |].
  repeat split; try (vm_compute; reflexivity).
  vm_compute. discriminate.
Qed.

Lemma rechunking_is_invisible_witness :
  Forall (fun c => c <> []) examples.three_chunks
  /\ Forall (fun c => c <> []) [concat examples.three_chunks]
  /\ concat examples.three_chunks = concat [concat examples.three_chunks]
  /\ record_reader.records_of
       (record_reader.drain (line_delimited.find_record_end examples.LF)
          (record_reader.create (byte_stream.open examples.three_chunks)))
     = record_reader.records_of
         (record_reader.drain (line_delimited.find_record_end examples.LF)
            (record_reader.create (byte_stream.open [concat examples.three_chunks]))).
Proof.
  assert (H1 : Forall (fun c : memory_block => c <> []) examples.three_chunks)
    by (repeat constructor; discriminate).
  assert (H2 : Forall (fun c : memory_block => c <> []) [concat examples.three_chunks])
    by (repeat constructor; discriminate).
  assert (H3 : concat examples.three_chunks = concat [concat examples.three_chunks])
    by reflexivity.
  split; [exact H1 |]. split; [exact H2 |]. split; [exact H3 |].
  exact (proj1 (rechunking_is_invisible examples.LF _ _ H1 H2 H3)).
Defined.

(** C3 as stated fails: the records drained from "ab", "c\nde", "f\n" are
    "abc\n" and "def\n", not "abc" and "def". *)
Lemma line_records_are_not_stripped :
  record_reader.records_of
    (record_reader.drain line_delimited.find_line_end
       (record_reader.create (byte_stream.open examples.three_chunks)))
  = [examples.bytes "abc" ++ [examples.LF]; examples.bytes "def" ++ [examples.LF]]
  /\ record_reader.records_of
       (record_reader.drain line_delimited.find_line_end
          (record_reader.create (byte_stream.open examples.three_chunks)))
     <> [examples.bytes "abc"; examples.bytes "def"].
Proof. split; [vm_compute; reflexivity | vm_compute; discriminate]. Qed.

(** C3, as amended.  With the line-delimited strategy (delimiter LF,
    offset one past the delimiter), three calls of [next] on a reader over
    "ab", "c\nde", "f\n" return "abc\n", "def\n" and the empty block; the
    drain gives the records "abc\n" and "def\n", delimiter included, and
    stops at the end of data. *)
Theorem line_records_of_three_chunks :
  (exists r1 r2 r3 : record_reader.t,
      record_reader.next line_delimited.find_line_end
        (record_reader.create (byte_stream.open examples.three_chunks))
      = record_reader.Returns (examples.bytes "abc" ++ [examples.LF]) r1
      /\ record_reader.next line_delimited.find_line_end r1
         = record_reader.Returns (examples.bytes "def" ++ [examples.LF]) r2
      /\ record_reader.next line_delimited.find_line_end r2
         = record_reader.Returns [] r3)
  /\ record_reader.records_of
       (record_reader.drain line_delimited.find_line_end
          (record_reader.create (byte_stream.open examples.three_chunks)))
     = [examples.bytes "abc" ++ [examples.LF]; examples.bytes "def" ++ [examples.LF]]
  /\ record_reader.ending_of
       (record_reader.drain line_delimited.find_line_end
          (record_reader.create (byte_stream.open examples.three_chunks)))
     = record_reader.end_of_data.
Proof.
  split; [| split; vm_compute; reflexivity].
  do 3 eexists. split; [vm_compute; reflexivity |].
  split; vm_compute; reflexivity.
Qed.

Lemma extract_record_bytes_witness :
  record_reader.within_chunk line_delimited.find_line_end
  /\ record_reader.clean (record_reader.create (byte_stream.open examples.three_chunks))
  /\ exists r1 : record_reader.t,
       record_reader.load_next_record line_delimited.find_line_end
         (record_reader.create (byte_stream.open examples.three_chunks))
       = record_reader.Returns true r1
       /\ record_reader.previous_chunks_ r1 = [[]; examples.bytes "ab"]
       /\ record_reader.next line_delimited.find_line_end
            (record_reader.create (byte_stream.open examples.three_chunks))
          = record_reader.Returns (examples.bytes "abc" ++ [examples.LF])
              (record_reader.moved r1).
Proof.
  split; [exact (delimiter_within_chunk examples.LF) |].
  split; [reflexivity |].
  eexists. split; [vm_compute; reflexivity |].
  split; [reflexivity |].
  exact (proj1 (extract_record_bytes line_delimited.find_line_end
                  (record_reader.create (byte_stream.open examples.three_chunks)) _
                  (delimiter_within_chunk examples.LF) eq_refl eq_refl)).
Defined.

(** C6 as stated fails for a strategy that reports a boundary at offset 0:
    its offsets lie within the chunk, yet [next] returns the empty block,
    the end-of-sequence value, on a new reader although the chunk the
    stream would give is "ab" and the stream has not ended. *)
Lemma empty_record_is_taken_for_the_end :
  record_reader.within_chunk (fun _ _ => Some 0)
  /\ (exists r2 : record_reader.t,
         record_reader.next (fun _ _ => Some 0)
           (record_reader.create (byte_stream.open [examples.bytes "ab"]))
         = record_reader.Returns [] r2)
  /\ fst (byte_stream.read_chunk
            (record_reader.stream_
               (record_reader.create (byte_stream.open [examples.bytes "ab"]))))
     = examples.bytes "ab"
  /\ fst (byte_stream.read_chunk
            (record_reader.stream_
               (record_reader.create (byte_stream.open [examples.bytes "ab"]))))
     <> [].
Proof.
  split.
  - intros chunk first_chunk k E. inversion E. lia.
  - split; [eexists; reflexivity |]. split; [reflexivity | discriminate].
Qed.

Lemma next_signals_end_iff_witness :
  record_reader.within_chunk line_delimited.find_line_end
  /\ record_reader.positive_offsets line_delimited.find_line_end
  /\ exists r2 : record_reader.t,
       record_reader.next line_delimited.find_line_end
         (record_reader.create (byte_stream.open []))
       = record_reader.Returns [] r2.
Proof.
  split; [exact (delimiter_within_chunk examples.LF) |].
  split; [exact (delimiter_positive_offsets examples.LF) |].
  exact (proj2 (proj1 (next_signals_end_iff line_delimited.find_line_end
                         (record_reader.create (byte_stream.open []))
                         (delimiter_within_chunk examples.LF)
                         (delimiter_positive_offsets examples.LF)))
           (conj eq_refl eq_refl)).
Defined.

(** C5 as stated fails on an input that does not end with a delimiter:
    the drain of "ab", "cd" stops with a [record_error] and has produced
    no record. *)
Lemma unterminated_input_is_not_reproduced :
  record_reader.records_of
    (record_reader.drain line_delimited.find_line_end
       (record_reader.create (byte_stream.open examples.unterminated_chunks)))
  = []
  /\ record_reader.ending_of
       (record_reader.drain line_delimited.find_line_end
          (record_reader.create (byte_stream.open examples.unterminated_chunks)))
     = record_reader.failed (record_error 2)
  /\ concat (record_reader.records_of
               (record_reader.drain line_delimited.find_line_end
                  (record_reader.create (byte_stream.open examples.unterminated_chunks))))
     <> concat examples.unterminated_chunks.
Proof. repeat split; try (vm_compute; reflexivity). vm_compute. discriminate. Qed.

(** Why the offsets have to be positive in the statement above: [next]
    returns the empty block for an empty record as it does at the end of
    data, so a strategy that reports a boundary at offset 0 of the first
    chunk stops the drain with the input unread. *)
Lemma empty_record_ends_the_drain :
  record_reader.drain (fun _ _ => Some 0)
    (record_reader.create (byte_stream.open [examples.bytes "ab"]))
  = ([], record_reader.end_of_data,
     record_reader.create (byte_stream.open [examples.bytes "ab"])).
Proof. reflexivity. Qed.

Lemma drain_concat_is_input_witness :
  record_reader.within_chunk line_delimited.find_line_end
  /\ record_reader.positive_offsets line_delimited.find_line_end
  /\ Forall (fun c => c <> []) examples.three_chunks
  /\ concat (record_reader.records_of
               (record_reader.drain line_delimited.find_line_end
                  (record_reader.create (byte_stream.open examples.three_chunks))))
     = concat examples.three_chunks.
Proof.
  assert (H : Forall (fun c : memory_block => c <> []) examples.three_chunks)
    by (repeat constructor; discriminate).
  split; [exact (delimiter_within_chunk examples.LF) |].
  split; [exact (delimiter_positive_offsets examples.LF) |].
  split; [exact H |].
  apply (drain_concat_is_input line_delimited.find_line_end examples.three_chunks
           (delimiter_within_chunk examples.LF)
           (delimiter_positive_offsets examples.LF) H).
  vm_compute. reflexivity.
Defined.

(* ================================================================= *)
(** ** count_data_source *)

Lemma produce_ext (n : nat) :
  forall s1 s2 : count_data_source.t,
    count_data_source.counter_ s1 = count_data_source.counter_ s2 ->
    count_data_source.field_name_ s1 = count_data_source.field_name_ s2 ->
    fst (count_data_source.produce n s1) = fst (count_data_source.produce n s2).
Proof.
  induction n as [| n IH]; intros s1 s2 Hc Hf; [reflexivity |].
  simpl. unfold count_data_source.next. rewrite Hc, Hf.
  specialize (IH (count_data_source.post_increment s1)
                 (count_data_source.post_increment s2)).
  simpl in IH. rewrite Hc, Hf in IH. specialize (IH eq_refl eq_refl).
  destruct (count_data_source.field_name_ s2);
    destruct (count_data_source.produce n (count_data_source.post_increment s1));
    destruct (count_data_source.produce n (count_data_source.post_increment s2));
    simpl in *; congruence.
Qed.

Lemma read_recorded (prior : list data) (i : Z) :
  tape.read_int64 (tape.record (tape.mk prior (length prior)) (data_int i))
  = Ok (i, tape.mk (prior ++ [data_int i]) (S (length prior))).
Proof.
  unfold tape.read_int64, tape.record. simpl.
  rewrite nth_error_app2, Nat.sub_diag by lia. reflexivity.
Qed.

(** C7 as stated fails: after the values 5, 6 and 7 the counter is 8, and
    8 is what [record_position] writes. *)
Lemma count_records_the_next_value :
  fst (count_data_source.produce 3 (count_data_source.create 5 None))
  = [Some (data_int 5); Some (data_int 6); Some (data_int 7)]
  /\ tape.storage_
       (count_data_source.record_position
          (snd (count_data_source.produce 3 (count_data_source.create 5 None)))
          (tape.mk [] 0))
     = [data_int 8]
  /\ tape.storage_
       (count_data_source.record_position
          (snd (count_data_source.produce 3 (count_data_source.create 5 None)))
          (tape.mk [] 0))
     <> [data_int 7].
Proof. split; [reflexivity | split; [reflexivity | discriminate]]. Qed.

(** C7, as amended.  A counting source that starts at 5 and has produced
    5, 6 and 7 records the integer 8; a fresh counting source, whatever its
    own start, that reloads its position from that tape then produces 8, 9
    and 10. *)
Theorem count_position_example (start : Z) :
  fst (count_data_source.produce 3 (count_data_source.create 5 None))
  = [Some (data_int 5); Some (data_int 6); Some (data_int 7)]
  /\ tape.storage_
       (count_data_source.record_position
          (snd (count_data_source.produce 3 (count_data_source.create 5 None)))
          (tape.mk [] 0))
     = [data_int 8]
  /\ exists (s' : count_data_source.t) (tp' : tape.t),
       count_data_source.reload_position (count_data_source.create start None)
         (count_data_source.record_position
            (snd (count_data_source.produce 3 (count_data_source.create 5 None)))
            (tape.mk [] 0))
       = Ok (s', tp')
       /\ fst (count_data_source.produce 3 s')
          = [Some (data_int 8); Some (data_int 9); Some (data_int 10)].
Proof.
  split; [reflexivity |]. split; [reflexivity |].
  do 2 eexists. split; reflexivity.
Qed.

(** C9.  Whatever the state of a counting source [s] and whatever was
    recorded on the tape before: after [record_position], a fresh source
    with the same field name (and any start) that reloads its position,
    reading the tape where the recording began, produces the same values as
    [s] does from where it is, for any number of calls. *)
Theorem reload_resumes_identically
  (s : count_data_source.t) (start : Z) (prior : list data) (n : nat) :
  exists (s' : count_data_source.t) (tp' : tape.t),
    count_data_source.reload_position
      (count_data_source.create start (count_data_source.field_name_ s))
      (count_data_source.record_position s (tape.mk prior (length prior)))
    = Ok (s', tp')
    /\ count_data_source.counter_ s' = count_data_source.counter_ s
    /\ fst (count_data_source.produce n s') = fst (count_data_source.produce n s).
Proof.
  unfold count_data_source.reload_position, count_data_source.record_position.
  rewrite read_recorded. simpl. do 2 eexists. split; [reflexivity |].
  split; [reflexivity |]. apply produce_ext; reflexivity.
Qed.

(** C10.  In every state [next] returns a value: the current counter, in a
    one-entry dictionary under the field name when there is one, bare
    otherwise; it never returns the end-of-data value, however often it is
    called. *)
Theorem count_never_ends (s : count_data_source.t) :
  fst (count_data_source.next s)
  = Some (match count_data_source.field_name_ s with
          | Some name => data_dict [(name, data_int (count_data_source.counter_ s))]
          | None => data_int (count_data_source.counter_ s)
          end)
  /\ forall n : nat, Forall (fun d => d <> None) (fst (count_data_source.produce n s)).
Proof.
  split.
  - unfold count_data_source.next. destruct (count_data_source.field_name_ s); reflexivity.
  - intros n. revert s. induction n as [| n IH]; intros s; simpl; [constructor |].
    specialize (IH (count_data_source.post_increment s)).
    unfold count_data_source.next.
    destruct (count_data_source.field_name_ s);
      destruct (count_data_source.produce n (count_data_source.post_increment s));
      simpl in *; constructor; auto; discriminate.
Qed.

(* ================================================================= *)
(** ** immutable_string: split *)

Section Split.

Variable separator : byte.

Lemma fields_not_nil (s : memory_block) : immutable_string.fields separator s <> [].
Proof.
  destruct s as [| c s]; simpl; [discriminate |].
  destruct (Byte.eqb c separator); [discriminate |].
  destruct (immutable_string.fields separator s); discriminate.
Qed.

(** The fields, joined by the separator, are the string. *)
Lemma join_fields (s : memory_block) :
  immutable_string.join separator (immutable_string.fields separator s) = s.
Proof.
  induction s as [| c s IH]; [reflexivity |]. simpl.
  pose proof (fields_not_nil s) as Hne.
  destruct (Byte.eqb c separator) eqn:Ec.
  - apply Byte.byte_dec_bl in Ec. subst c.
    destruct (immutable_string.fields separator s) as [| f fs] eqn:Ef; [congruence |].
    simpl in *. rewrite IH. reflexivity.
  - destruct (immutable_string.fields separator s) as [| f fs] eqn:Ef; [congruence |].
    simpl in *. destruct fs; simpl; rewrite <- IH; reflexivity.
Qed.

(** No field contains the separator. *)
Lemma fields_no_separator (s : memory_block) :
  Forall (fun f => ~ In separator f) (immutable_string.fields separator s).
Proof.
  induction s as [| c s IH]; simpl.
  - constructor; [intros [] | constructor].
  - destruct (Byte.eqb c separator) eqn:Ec.
    + constructor; [intros [] | exact IH].
    + apply Byte.eqb_false in Ec.
      destruct (immutable_string.fields separator s) as [| f fs].
      * constructor; [| constructor]. intros [H | []]. congruence.
      * inversion IH; subst. constructor; [| assumption].
        intros [H | H]; [congruence | contradiction].
Qed.

Lemma prepend_nil (fs : list memory_block) :
  fs <> [] -> immutable_string.prepend [] fs = fs.
Proof. destruct fs; [congruence | reflexivity]. Qed.

(** The loop's parts and its open run are the non-empty fields. *)
Lemma scan_fields (rest : memory_block) :
  forall run : memory_block,
    filter (fun f => negb (memory.empty f))
      (immutable_string.prepend run (immutable_string.fields separator rest))
    = fst (immutable_string.scan separator run rest)
      ++ (if negb (memory.empty (snd (immutable_string.scan separator run rest)))
          then [snd (immutable_string.scan separator run rest)]
          else []).
Proof.
  induction rest as [| c rest IH]; intros run; simpl.
  - rewrite app_nil_r. destruct (negb (memory.empty run)); reflexivity.
  - destruct (Byte.eqb c separator).
    + specialize (IH []). unfold immutable_string.prepend at 1.
      rewrite app_nil_r.
      rewrite prepend_nil in IH by apply fields_not_nil.
      destruct (immutable_string.scan separator [] rest) as [parts last].
      cbn [fst snd] in *. cbn [filter].
      destruct (negb (memory.empty run)); cbn [app]; rewrite IH; reflexivity.
    + specialize (IH (run ++ [c])).
      pose proof (fields_not_nil rest) as Hne.
      destruct (immutable_string.fields separator rest) as [| f fs]; [congruence |].
      unfold immutable_string.prepend in *. rewrite <- app_assoc in IH. exact IH.
Qed.

(** The open run is the end of the bytes scanned. *)
Lemma scan_suffix (rest : memory_block) :
  forall run : memory_block,
    exists front : memory_block,
      run ++ rest = front ++ snd (immutable_string.scan separator run rest).
Proof.
  induction rest as [| c rest IH]; intros run; simpl.
  - exists []. rewrite app_nil_r. reflexivity.
  - destruct (Byte.eqb c separator).
    + destruct (IH []) as [front Hf].
      destruct (immutable_string.scan separator [] rest) as [parts last].
      simpl in *. exists (run ++ c :: front). rewrite Hf, <- app_assoc. reflexivity.
    + destruct (IH (run ++ [c])) as [front Hf]. exists front.
      rewrite <- Hf, <- app_assoc. reflexivity.
Qed.

Lemma offset_differs (pre run : memory_block) :
  negb (length pre =? length pre + length run) = negb (memory.empty run).
Proof.
  destruct run as [| b run]; simpl.
  - rewrite Nat.add_0_r, Nat.eqb_refl. reflexivity.
  - destruct (Nat.eqb_spec (length pre) (length pre + S (length run)));
      [lia | reflexivity].
Qed.

Lemma share_slice_run (s pre run rest : memory_block) :
  s = pre ++ run ++ rest ->
  memory.share_slice s (length pre) (length pre + length run - length pre) = Ok run.
Proof.
  intros ->. unfold memory.share_slice, memory.size.
  replace (length pre + length run - length pre) with (length run) by lia.
  rewrite !length_app.
  destruct (Nat.leb_spec (length pre + length run)
              (length pre + (length run + length rest))); [| lia].
  rewrite skipn_length_app, firstn_length_app. reflexivity.
Qed.

(** The loop of [split], index by index, does what [scan] tells. *)
Lemma split_loop_scan (H : Type) (handler : H -> immutable_string.t -> H)
  (s rest : memory_block) :
  forall (pre run : memory_block) (h : H),
    s = pre ++ run ++ rest ->
    immutable_string.split_loop H handler (immutable_string.mk s) separator
      (length rest) (length pre + length run) (length pre) h
    = Ok (length s - length (snd (immutable_string.scan separator run rest)),
          fold_left handler
            (map immutable_string.mk (fst (immutable_string.scan separator run rest))) h).
Proof.
  induction rest as [| c rest IH]; intros pre run h Hs.
  - simpl. rewrite Hs, !length_app. simpl. f_equal. f_equal. lia.
  - cbn [length immutable_string.split_loop immutable_string.view
           immutable_string.storage_ immutable_string.scan].
    assert (Hnth : nth (length pre + length run) s x00 = c).
    { rewrite Hs, app_assoc, <- length_app. apply nth_middle. }
    rewrite Hnth. destruct (Byte.eqb c separator).
    + rewrite offset_differs.
      assert (Hs' : s = (pre ++ run ++ [c]) ++ [] ++ rest).
      { rewrite Hs, <- !app_assoc. reflexivity. }
      assert (Hlen : S (length pre + length run) = length (pre ++ run ++ [c])).
      { rewrite !length_app. simpl. lia. }
      rewrite Hlen.
      assert (IH' := fun h' => IH (pre ++ run ++ [c]) [] h' Hs').
      cbn [length] in IH'. rewrite Nat.add_0_r in IH'.
      destruct (negb (memory.empty run)).
      * rewrite (share_slice_run s pre run (c :: rest) Hs). cbn [bind].
        rewrite IH'.
        destruct (immutable_string.scan separator [] rest) as [parts last].
        reflexivity.
      * cbn [bind]. rewrite IH'.
        destruct (immutable_string.scan separator [] rest) as [parts last].
        reflexivity.
    + assert (Hs' : s = pre ++ (run ++ [c]) ++ rest).
      { rewrite Hs, <- !app_assoc. reflexivity. }
      replace (S (length pre + length run)) with (length pre + length (run ++ [c]))
        by (rewrite length_app; simpl; lia).
      apply (IH pre (run ++ [c]) h Hs').
Qed.

Lemma fold_left_push_back (A : Type) (l acc : list A) :
  fold_left (fun output part => output ++ [part]) l acc = acc ++ l.
Proof.
  revert acc. induction l as [| x l IH]; intros acc; simpl.
  - rewrite app_nil_r. reflexivity.
  - rewrite IH, <- app_assoc. reflexivity.
Qed.

(** [split(char, handler)] hands the non-empty runs, from left to right,
    to the handler. *)
Lemma split_with_runs (H : Type) (handler : H -> immutable_string.t -> H)
  (s : memory_block) (h : H) :
  immutable_string.split_with H handler (immutable_string.mk s) separator h
  = Ok (fold_left handler
          (map immutable_string.mk (immutable_string.runs separator s)) h).
Proof.
  unfold immutable_string.split_with, immutable_string.view, memory.size. simpl.
  pose proof (split_loop_scan H handler s s [] [] h eq_refl) as Hloop.
  simpl in Hloop. rewrite Hloop. cbn [bind fst snd].
  unfold immutable_string.runs.
  rewrite <- (prepend_nil (immutable_string.fields separator s))
    by apply fields_not_nil.
  rewrite scan_fields.
  destruct (scan_suffix s []) as [front Hfront]. simpl in Hfront.
  destruct (immutable_string.scan separator [] s) as [parts last]. cbn [fst snd] in *.
  assert (Hoff : length s - length last = length front).
  { rewrite Hfront, length_app. lia. }
  rewrite Hoff. destruct last as [| b last].
  - rewrite app_nil_r in *. subst s. rewrite Nat.eqb_refl. reflexivity.
  - destruct (Nat.eqb_spec (length front) (length s)) as [Heq | Hneq].
    + rewrite Hfront, length_app in Heq. simpl in Heq. lia.
    + simpl. unfold immutable_string.remove_prefix. simpl.
      rewrite share_from_ok by (rewrite Hfront, length_app; lia).
      simpl. rewrite Hfront at 1. rewrite skipn_length_app.
      rewrite map_app, fold_left_app. reflexivity.
Qed.

Lemma runs_not_empty (s : memory_block) :
  Forall (fun f => f <> []) (immutable_string.runs separator s).
Proof.
  unfold immutable_string.runs. apply Forall_forall. intros f Hin.
  apply filter_In in Hin. destruct Hin as [_ Hf].
  destruct f; [discriminate | discriminate].
Qed.

(** C8.  [split(separator)] returns, in order, the non-empty runs of the
    string between occurrences of the separator, and [split(separator,
    handler)] hands the same views to the handler.  The runs are the
    non-empty fields, where the fields are the pieces without a separator
    that, joined by single separators, make up the string; so empty fields
    (between neighbouring separators, before a leading or behind a
    trailing one) give no view.  On "xayaz" with separator 'a' the result
    is "x", "y", "z"; on "aaxa" it is "x". *)
Theorem split_yields_runs (s : memory_block) :
  immutable_string.split (immutable_string.mk s) separator
  = Ok (map immutable_string.mk (immutable_string.runs separator s))
  /\ (forall (H : Type) (handler : H -> immutable_string.t -> H) (h : H),
         immutable_string.split_with H handler (immutable_string.mk s) separator h
         = Ok (fold_left handler
                 (map immutable_string.mk (immutable_string.runs separator s)) h))
  /\ immutable_string.join separator (immutable_string.fields separator s) = s
  /\ Forall (fun f => ~ In separator f) (immutable_string.fields separator s)
  /\ Forall (fun f => f <> []) (immutable_string.runs separator s)
  /\ immutable_string.split (immutable_string.mk (examples.bytes "xayaz")) "a"%byte
     = Ok [immutable_string.mk (examples.bytes "x");
           immutable_string.mk (examples.bytes "y");
           immutable_string.mk (examples.bytes "z")]
  /\ immutable_string.split (immutable_string.mk (examples.bytes "aaxa")) "a"%byte
     = Ok [immutable_string.mk (examples.bytes "x")].
Proof.
  split.
  { unfold immutable_string.split. rewrite split_with_runs, fold_left_push_back.
    reflexivity. }
  split; [intros H handler h; apply split_with_runs |].
  split; [apply join_fields |].
  split; [apply fields_no_separator |].
  split; [apply runs_not_empty |].
  split; vm_compute; reflexivity.
Qed.

End Split.

(* ================================================================= *)
(** * Further properties *)

(** ** record_reader: reset *)

Section Reset.

Variable find_record_end : memory_block -> bool -> option nat.

Lemma same_buffers_refl (r : record_reader.t) : same_buffers r r.
Proof. repeat split. Qed.

(** The loop does not read [record_length_] or [record_end_offset_]: it
    only adds to the one and overwrites the other. *)
Lemma load_loop_counters (pending : list memory_block) :
  forall (first_chunk : bool) (s : byte_stream.t) (cur : memory_block)
         (prev : list memory_block) (a b a' b' : nat),
    match record_reader.load_loop find_record_end pending first_chunk
            (record_reader.mk s cur prev a b),
          record_reader.load_loop find_record_end pending first_chunk
            (record_reader.mk s cur prev a' b')
    with
    | record_reader.Returns true r1, record_reader.Returns true r1' =>
        same_buffers r1 r1'
        /\ record_reader.record_end_offset_ r1 = record_reader.record_end_offset_ r1'
        /\ record_reader.record_length_ r1 + a' = record_reader.record_length_ r1' + a
    | record_reader.Returns false r1, record_reader.Returns false r1' =>
        same_buffers r1 r1'
    | record_reader.Throws e r1, record_reader.Throws e' r1' =>
        e = e' /\ same_buffers r1 r1'
    | _, _ => False
    end.
Proof.
  induction pending as [| c pending IH]; intros first_chunk s cur prev a b a' b'; simpl.
  - destruct (find_record_end cur first_chunk).
    + simpl. repeat split. lia.
    + destruct (memory.empty cur); repeat split.
  - destruct (find_record_end cur first_chunk).
    + simpl. repeat split. lia.
    + destruct (memory.empty c).
      * destruct (memory.empty cur); repeat split.
      * pose proof (IH false
                      {| byte_stream.chunks_ := byte_stream.chunks_ s;
                         byte_stream.pending_ := pending |}
                      c (prev ++ [cur]) (a + memory.size cur) b
                      (a' + memory.size cur) b') as Hrec.
        destruct (record_reader.load_loop find_record_end pending false
                    (record_reader.mk _ c (prev ++ [cur]) (a + memory.size cur) b))
          as [[|] r1 | e r1];
          destruct (record_reader.load_loop find_record_end pending false
                      (record_reader.mk _ c (prev ++ [cur]) (a' + memory.size cur) b'))
            as [[|] r1' | e' r1']; try contradiction; try exact Hrec.
        destruct Hrec as (Hs & Ho & Hl). repeat split; try apply Hs; try exact Ho. lia.
Qed.

Lemma load_next_record_same (r r' : record_reader.t) :
  same_buffers r r' ->
  match record_reader.load_next_record find_record_end r,
        record_reader.load_next_record find_record_end r'
  with
  | record_reader.Returns true r1, record_reader.Returns true r1' => r1 = r1'
  | record_reader.Returns false r1, record_reader.Returns false r1' => same_buffers r1 r1'
  | record_reader.Throws e r1, record_reader.Throws e' r1' =>
      e = e' /\ same_buffers r1 r1'
  | _, _ => False
  end.
Proof.
  destruct r as [s cur prev a b], r' as [s' cur' prev' a' b'].
  intros (Hs & Hc & Hp). simpl in *. subst s' cur' prev'.
  unfold record_reader.load_next_record. simpl.
  pose proof (load_loop_counters (byte_stream.pending_ s) true s cur prev 0 b 0 b') as H.
  destruct (record_reader.load_loop find_record_end (byte_stream.pending_ s) true
              (record_reader.mk s cur prev 0 b)) as [[|] r1 | e r1];
    destruct (record_reader.load_loop find_record_end (byte_stream.pending_ s) true
                (record_reader.mk s cur prev 0 b')) as [[|] r1' | e' r1'];
    try contradiction; try exact H.
  destruct r1, r1'. destruct H as ((H1 & H2 & H3) & H4 & H5). simpl in *.
  subst. f_equal. lia.
Qed.

(** [next] behaves the same in readers with the same buffers. *)
Lemma next_same (r r' : record_reader.t) :
  same_buffers r r' ->
  same_outcome (record_reader.next find_record_end r)
    (record_reader.next find_record_end r').
Proof.
  intros Hsame. apply load_next_record_same in Hsame. unfold record_reader.next.
  destruct (record_reader.load_next_record find_record_end r) as [[|] r1 | e r1];
    destruct (record_reader.load_next_record find_record_end r') as [[|] r1' | e' r1'];
    try contradiction; simpl; auto.
  subst r1'. destruct (record_reader.extract_record r1); simpl;
    [| split; [reflexivity | apply same_buffers_refl]].
  destruct (record_reader.move_to_next_record r1); simpl;
    split; try reflexivity; apply same_buffers_refl.
Qed.

Lemma measure_same (r r' : record_reader.t) :
  same_buffers r r' -> record_reader.measure r = record_reader.measure r'.
Proof.
  intros (Hs & Hc & _). unfold record_reader.measure. rewrite Hs, Hc. reflexivity.
Qed.

Lemma drain_fuel_same (fuel : nat) :
  forall r r' : record_reader.t,
    same_buffers r r' ->
    record_reader.records_of (record_reader.drain_fuel find_record_end fuel r)
    = record_reader.records_of (record_reader.drain_fuel find_record_end fuel r')
    /\ record_reader.ending_of (record_reader.drain_fuel find_record_end fuel r)
       = record_reader.ending_of (record_reader.drain_fuel find_record_end fuel r')
    /\ same_buffers
         (record_reader.reader_of (record_reader.drain_fuel find_record_end fuel r))
         (record_reader.reader_of (record_reader.drain_fuel find_record_end fuel r')).
Proof.
  induction fuel as [| fuel IH]; intros r r' Hsame; simpl; [auto |].
  pose proof (next_same r r' Hsame) as Hn.
  destruct (record_reader.next find_record_end r) as [rec r2 | e r2];
    destruct (record_reader.next find_record_end r') as [rec' r2' | e' r2'];
    simpl in Hn; try contradiction; destruct Hn as [<- Hs2].
  - destruct (memory.empty rec); [auto |].
    specialize (IH r2 r2' Hs2).
    destruct (record_reader.drain_fuel find_record_end fuel r2) as [[recs how] r3].
    destruct (record_reader.drain_fuel find_record_end fuel r2') as [[recs' how'] r3'].
    unfold record_reader.records_of, record_reader.ending_of, record_reader.reader_of in *.
    simpl in *. destruct IH as (-> & -> & H3). auto.
  - auto.
Qed.

Lemma drain_same (r r' : record_reader.t) :
  same_buffers r r' ->
  record_reader.records_of (record_reader.drain find_record_end r)
  = record_reader.records_of (record_reader.drain find_record_end r')
  /\ record_reader.ending_of (record_reader.drain find_record_end r)
     = record_reader.ending_of (record_reader.drain find_record_end r')
  /\ same_buffers
       (record_reader.reader_of (record_reader.drain find_record_end r))
       (record_reader.reader_of (record_reader.drain find_record_end r')).
Proof.
  intros Hsame. unfold record_reader.drain.
  rewrite <- (measure_same r r' Hsame). apply drain_fuel_same. exact Hsame.
Qed.

(** No call changes what the stream holds. *)
Lemma load_loop_chunks (pending : list memory_block) :
  forall (first_chunk : bool) (r : record_reader.t),
    byte_stream.chunks_
      (record_reader.stream_
         (state_after (record_reader.load_loop find_record_end pending first_chunk r)))
    = byte_stream.chunks_ (record_reader.stream_ r).
Proof.
  induction pending as [| c pending IH]; intros first_chunk r; simpl.
  - destruct (find_record_end _ _); [reflexivity |].
    destruct (memory.empty _); reflexivity.
  - destruct (find_record_end _ _); [reflexivity |].
    destruct (memory.empty c); [destruct (memory.empty _); reflexivity |].
    rewrite IH. reflexivity.
Qed.

Lemma next_chunks (r : record_reader.t) :
  byte_stream.chunks_
    (record_reader.stream_ (state_after (record_reader.next find_record_end r)))
  = byte_stream.chunks_ (record_reader.stream_ r).
Proof.
  unfold record_reader.next, record_reader.load_next_record.
  match goal with
  | |- context [record_reader.load_loop _ ?p ?f ?r0] =>
      pose proof (load_loop_chunks p f r0) as H;
      destruct (record_reader.load_loop find_record_end p f r0) as [[|] r1 | e r1]
  end; simpl in *; try exact H.
  destruct (record_reader.extract_record r1); simpl; [| exact H].
  destruct (record_reader.move_to_next_record r1) as [r2 |] eqn:Em; simpl; [| exact H].
  apply move_to_next_record_inv in Em. destruct Em as [_ ->]. exact H.
Qed.

Lemma drain_fuel_chunks (fuel : nat) :
  forall r : record_reader.t,
    byte_stream.chunks_
      (record_reader.stream_
         (record_reader.reader_of (record_reader.drain_fuel find_record_end fuel r)))
    = byte_stream.chunks_ (record_reader.stream_ r).
Proof.
  induction fuel as [| fuel IH]; intros r; simpl; [reflexivity |].
  pose proof (next_chunks r) as Hn.
  destruct (record_reader.next find_record_end r) as [rec r2 | e r2]; simpl in Hn;
    [| exact Hn].
  destruct (memory.empty rec); [exact Hn |].
  specialize (IH r2).
  destruct (record_reader.drain_fuel find_record_end fuel r2) as [[recs how] r3].
  unfold record_reader.reader_of in *. simpl in *. congruence.
Qed.

(** X1.  [reset] brings a reader in any state, also one that has thrown,
    back to the start: draining it gives the records and the ending that a
    newly constructed reader over the same stream gives.  So a reader that
    is drained, reset and drained again yields the same records twice. *)
Theorem reset_replays (r : record_reader.t) (chunks : list memory_block) :
  (record_reader.records_of (record_reader.drain find_record_end (record_reader.reset r))
   = record_reader.records_of
       (record_reader.drain find_record_end
          (record_reader.create
             (byte_stream.open (byte_stream.chunks_ (record_reader.stream_ r)))))
   /\ record_reader.ending_of
        (record_reader.drain find_record_end (record_reader.reset r))
      = record_reader.ending_of
          (record_reader.drain find_record_end
             (record_reader.create
                (byte_stream.open (byte_stream.chunks_ (record_reader.stream_ r))))))
  /\ (record_reader.records_of
        (record_reader.drain find_record_end
           (record_reader.reset
              (record_reader.reader_of
                 (record_reader.drain find_record_end
                    (record_reader.create (byte_stream.open chunks))))))
      = record_reader.records_of
          (record_reader.drain find_record_end
             (record_reader.create (byte_stream.open chunks)))
      /\ record_reader.ending_of
           (record_reader.drain find_record_end
              (record_reader.reset
                 (record_reader.reader_of
                    (record_reader.drain find_record_end
                       (record_reader.create (byte_stream.open chunks))))))
         = record_reader.ending_of
             (record_reader.drain find_record_end
                (record_reader.create (byte_stream.open chunks)))).
Proof.
  split.
  - assert (Hs : same_buffers (record_reader.reset r)
                   (record_reader.create
                      (byte_stream.open (byte_stream.chunks_ (record_reader.stream_ r)))))
      by (repeat split).
    destruct (drain_same _ _ Hs) as (H1 & H2 & _). auto.
  - set (r0 := record_reader.create (byte_stream.open chunks)).
    assert (Hs : same_buffers
                   (record_reader.reset
                      (record_reader.reader_of (record_reader.drain find_record_end r0)))
                   r0).
    { unfold same_buffers, record_reader.reset, byte_stream.reset. simpl.
      unfold record_reader.drain. rewrite drain_fuel_chunks. repeat split. }
    destruct (drain_same _ _ Hs) as (H1 & H2 & _). auto.
Qed.

End Reset.

(** ** record_reader: single calls of next *)

Section Calls.

Variable find_record_end : memory_block -> bool -> option nat.

Lemma app_same_tail (A : Type) (l1 l2 : list A) : l1 ++ l2 = l2 -> l1 = [].
Proof.
  intros E. apply (f_equal (@length A)) in E. rewrite length_app in E.
  destruct l1; [reflexivity | simpl in E; lia].
Qed.

(** X2.  Which of the two ways of [extract_record] is taken.  For a reader
    that holds no previous chunks on entry, the record is a shared
    sub-range of the current chunk exactly when the boundary is found
    without reading from the stream, in the chunk left by the call before.
    As soon as one chunk is read, the chunk held before goes to the
    previous chunks, empty or not, and the record is copied: with a
    strategy that finds nothing in an empty chunk, the first record of a
    new reader is always a copy. *)
Theorem shared_iff_nothing_read (r r1 : record_reader.t) :
  record_reader.clean r ->
  record_reader.load_next_record find_record_end r = record_reader.Returns true r1 ->
  (record_reader.previous_chunks_ r1 = []
   <-> byte_stream.pending_ (record_reader.stream_ r1)
       = byte_stream.pending_ (record_reader.stream_ r))
  /\ (record_reader.previous_chunks_ r1 = [] ->
      record_reader.current_chunk_ r1 = record_reader.current_chunk_ r
      /\ find_record_end (record_reader.current_chunk_ r) true
         = Some (record_reader.record_end_offset_ r1))
  /\ (record_reader.previous_chunks_ r1 <> [] ->
      hd [] (record_reader.previous_chunks_ r1) = record_reader.current_chunk_ r
      /\ record_reader.extract_record r1 = record_reader.copy_split_record r1)
  /\ (find_record_end (record_reader.current_chunk_ r) true = None ->
      record_reader.previous_chunks_ r1 <> []).
Proof.
  intros Hclean El. unfold record_reader.load_next_record in El.
  apply load_loop_true in El. simpl in El.
  destruct El as (taken & Hp & _ & _ & Hprev & _ & Hf).
  rewrite Hclean in Hprev. apply snoc_cases in Hprev.
  destruct Hprev as [(-> & Hp1 & Hc1) | (taken' & -> & Hp1)]; simpl in *.
  - rewrite Hp1, Hc1 in *. repeat split; auto; try congruence.
  - rewrite Hp1. split; [| split; [| split]]; try discriminate.
    + split; [discriminate |]. intros E. rewrite E in Hp.
      symmetry in Hp. apply app_same_tail in Hp. destruct taken'; discriminate.
    + intros _. split; [reflexivity |].
      unfold record_reader.extract_record. rewrite Hp1. reflexivity.
Qed.

(** X3.  What a call that returns gives and leaves.  For a strategy with
    offsets inside the chunk and a reader without previous chunks: the
    value returned, followed by the bytes the reader then holds or can
    still read, is what the reader held or could read before; the reader
    again has no previous chunks.  No byte is skipped, repeated or
    reordered. *)
Theorem next_returns_the_next_bytes (r r' : record_reader.t) (rec : memory_block) :
  record_reader.within_chunk find_record_end ->
  record_reader.clean r ->
  record_reader.next find_record_end r = record_reader.Returns rec r' ->
  rec ++ record_reader.unread r' = record_reader.unread r
  /\ record_reader.clean r'.
Proof.
  intros Hwithin Hclean En. apply next_returns_inv in En.
  destruct En as [[-> El] | (r1 & El & Hex & Hm)].
  - destruct (next_end_of_data _ r r' El) as (_ & _ & Hc & Hh & Hc1 & Hp1 & Hs1).
    unfold record_reader.clean, record_reader.unread in *. simpl.
    rewrite Hc, Hc1, Hp1, Hs1, Hclean. split; [| reflexivity]. simpl.
    apply concat_tl_hd_nil. unfold byte_stream.read_chunk in Hh.
    destruct (byte_stream.pending_ (record_reader.stream_ r)); simpl in *; auto.
  - destruct (next_found _ r r1 Hwithin Hclean El) as (_ & _ & Hex' & _).
    rewrite Hex' in Hex. inversion Hex; subst rec.
    apply move_to_next_record_inv in Hm. destruct Hm as [_ ->].
    split; [apply (next_found_unread _ r r1 Hclean El) | reflexivity].
Qed.

(** X4.  Progress.  Whatever the strategy and the state of the reader, a
    call that returns a record that is not empty leaves strictly less to
    consume, counting the unread bytes and chunks of the stream and the
    bytes of the current chunk.  So the consumer's loop, which stops at the
    first empty block or error, comes to an end: that count plus one bounds
    the number of calls, more fuel changes nothing, and the loop ends at
    the end of data or with an error. *)
Theorem next_makes_progress (r : record_reader.t) :
  (forall (r' : record_reader.t) (rec : memory_block),
      record_reader.next find_record_end r = record_reader.Returns rec r' ->
      rec <> [] ->
      record_reader.measure r' < record_reader.measure r)
  /\ (forall fuel : nat,
         record_reader.measure r < fuel ->
         record_reader.drain_fuel find_record_end fuel r
         = record_reader.drain find_record_end r)
  /\ (record_reader.ending_of (record_reader.drain find_record_end r)
      = record_reader.end_of_data
      \/ exists e : error,
           record_reader.ending_of (record_reader.drain find_record_end r)
           = record_reader.failed e).
Proof.
  split; [intros r' rec En Hrec; exact (next_measure _ _ _ _ En Hrec) |].
  split; [intros fuel Hfuel; apply drain_fuel_irrelevant; lia |].
  pose proof (drain_terminates find_record_end r) as Hterm.
  destruct (record_reader.ending_of (record_reader.drain find_record_end r)) as [| e |].
  - left. reflexivity.
  - right. exists e. reflexivity.
  - congruence.
Qed.

(** X5.  Truncation loses nothing.  When [load_next_record] throws, the
    error is a [record_error] that carries the size of the current chunk,
    which is not empty; the previous chunks and the current chunk together
    still hold every byte that was buffered before and every byte of the
    chunks read during the call.  The number in the error is thus at least
    one and at most the number of buffered bytes. *)
Theorem truncation_keeps_the_bytes (r r1 : record_reader.t) (e : error) :
  record_reader.load_next_record find_record_end r = record_reader.Throws e r1 ->
  record_reader.next find_record_end r = record_reader.Throws e r1
  /\ e = record_error (length (record_reader.current_chunk_ r1))
  /\ 1 <= length (record_reader.current_chunk_ r1)
     <= length (concat (record_reader.previous_chunks_ r1)
                ++ record_reader.current_chunk_ r1)
  /\ exists taken : list memory_block,
       concat (record_reader.previous_chunks_ r1) ++ record_reader.current_chunk_ r1
       = concat (record_reader.previous_chunks_ r) ++ record_reader.current_chunk_ r
         ++ concat taken
       /\ firstn (length taken) (byte_stream.pending_ (record_reader.stream_ r)) = taken.
Proof.
  intros El.
  destruct (next_truncated _ r r1 e El)
    as (Hn & He & Hcur & taken & rest & Hp & _ & _ & _ & Hb).
  split; [exact Hn |]. split; [exact He |]. split.
  - rewrite length_app.
    destruct (record_reader.current_chunk_ r1); [congruence | simpl; lia].
  - exists taken. split; [exact Hb |]. rewrite Hp. apply firstn_length_app.
Qed.

End Calls.

Lemma shared_iff_nothing_read_witness :
  record_reader.clean (record_reader.create (byte_stream.open examples.three_chunks))
  /\ exists r1 : record_reader.t,
       record_reader.load_next_record line_delimited.find_line_end
         (record_reader.create (byte_stream.open examples.three_chunks))
       = record_reader.Returns true r1
       /\ (record_reader.previous_chunks_ r1 = []
           <-> byte_stream.pending_ (record_reader.stream_ r1)
               = byte_stream.pending_
                   (record_reader.stream_
                      (record_reader.create (byte_stream.open examples.three_chunks)))).
Proof.
  split; [reflexivity |]. eexists. split; [vm_compute; reflexivity |].
  exact (proj1 (shared_iff_nothing_read line_delimited.find_line_end
                  (record_reader.create (byte_stream.open examples.three_chunks)) _
                  eq_refl eq_refl)).
Defined.

Lemma next_returns_the_next_bytes_witness :
  record_reader.within_chunk line_delimited.find_line_end
  /\ record_reader.clean (record_reader.create (byte_stream.open examples.three_chunks))
  /\ exists (rec : memory_block) (r' : record_reader.t),
       record_reader.next line_delimited.find_line_end
         (record_reader.create (byte_stream.open examples.three_chunks))
       = record_reader.Returns rec r'
       /\ rec ++ record_reader.unread r'
          = record_reader.unread
              (record_reader.create (byte_stream.open examples.three_chunks)).
Proof.
  split; [exact (delimiter_within_chunk examples.LF) |].
  split; [reflexivity |]. do 2 eexists. split; [vm_compute; reflexivity |].
  exact (proj1 (next_returns_the_next_bytes line_delimited.find_line_end
                  (record_reader.create (byte_stream.open examples.three_chunks)) _ _
                  (delimiter_within_chunk examples.LF) eq_refl eq_refl)).
Defined.

Lemma truncation_keeps_the_bytes_witness :
  exists r1 : record_reader.t,
    record_reader.load_next_record line_delimited.find_line_end
      (record_reader.create (byte_stream.open examples.unterminated_chunks))
    = record_reader.Throws (record_error 2) r1
    /\ record_reader.next line_delimited.find_line_end
         (record_reader.create (byte_stream.open examples.unterminated_chunks))
       = record_reader.Throws (record_error 2) r1.
Proof.
  eexists. split; [vm_compute; reflexivity |].
  exact (proj1 (truncation_keeps_the_bytes line_delimited.find_line_end
                  (record_reader.create (byte_stream.open examples.unterminated_chunks))
                  _ _ eq_refl)).
Defined.

(** ** record_reader with the line-delimited strategy *)

Lemma copy_chunks_throw (chunks : list memory_block) :
  forall (buf : memory_block) (iter : nat) (e : error),
    record_reader.copy_chunks chunks buf iter = Throw e -> e = memory_fault.
Proof.
  induction chunks as [| block chunks IH]; intros buf iter e E; simpl in E;
    [discriminate |].
  unfold memory.copy in E at 1.
  destruct (iter + memory.size block <=? memory.size buf); simpl in E.
  - apply IH in E. exact E.
  - inversion E. reflexivity.
Qed.

Lemma extract_record_throw (r : record_reader.t) (e : error) :
  record_reader.extract_record r = Throw e -> e = out_of_range \/ e = memory_fault.
Proof.
  unfold record_reader.extract_record.
  destruct (record_reader.previous_chunks_ r) eqn:Ep.
  - unfold memory.share_first, memory.share_slice.
    destruct (_ <=? _); intros E; inversion E. auto.
  - unfold record_reader.copy_split_record. rewrite Ep.
    destruct (record_reader.copy_chunks _ _ _) as [[buf iter] | e'] eqn:Ec; simpl.
    + destruct (_ <=? _); [| intros E; inversion E; auto].
      unfold memory.copy. destruct (_ <=? _); simpl; intros E; inversion E. auto.
    + intros E. inversion E; subst. apply copy_chunks_throw in Ec. auto.
Qed.

Lemma move_to_next_record_throw (r : record_reader.t) (e : error) :
  record_reader.move_to_next_record r = Throw e -> e = out_of_range.
Proof.
  unfold record_reader.move_to_next_record, memory.share_from, memory.share_slice.
  destruct (_ <=? _); simpl; intros E; inversion E. reflexivity.
Qed.

(** A [record_error] out of [next] comes from [load_next_record]. *)
Lemma next_record_error_inv
  (find_record_end : memory_block -> bool -> option nat)
  (r r1 : record_reader.t) (n : nat) :
  record_reader.next find_record_end r = record_reader.Throws (record_error n) r1 ->
  record_reader.load_next_record find_record_end r
  = record_reader.Throws (record_error n) r1.
Proof.
  unfold record_reader.next.
  destruct (record_reader.load_next_record find_record_end r) as [[|] r' | e r'];
    [| discriminate | intros E; inversion E; reflexivity].
  destruct (record_reader.extract_record r') as [rec | e] eqn:Ex.
  - destruct (record_reader.move_to_next_record r') as [r'' | e] eqn:Em; [discriminate |].
    intros E. inversion E; subst. apply move_to_next_record_throw in Em. discriminate.
  - intros E. inversion E; subst. apply extract_record_throw in Ex.
    destruct Ex; discriminate.
Qed.

Section Lines.

Variable delimiter : byte.

(** X6.  After a truncation the reader stays in error.  With the
    line-delimited strategy over a stream of non-empty chunks: when [next]
    has thrown a [record_error], a further call without [reset] throws the
    same [record_error] and leaves the buffers as they are; no record is
    made of the partial bytes. *)
Theorem truncation_is_sticky (r r1 : record_reader.t) (n : nat) :
  Forall (fun c => c <> []) (byte_stream.pending_ (record_reader.stream_ r)) ->
  record_reader.next (line_delimited.find_record_end delimiter) r
  = record_reader.Throws (record_error n) r1 ->
  exists r2 : record_reader.t,
    record_reader.next (line_delimited.find_record_end delimiter) r1
    = record_reader.Throws (record_error n) r2
    /\ same_buffers r1 r2.
Proof.
  intros Hne En. apply next_record_error_inv in En.
  assert (Hl := En). unfold record_reader.load_next_record in Hl.
  match type of Hl with
  | record_reader.load_loop _ ?p ?f ?r0 = _ =>
      pose proof (load_loop_examined (line_delimited.find_record_end delimiter) p f r0)
        as Hexam
  end.
  rewrite Hl in Hexam. destruct Hexam as (added & _ & Hnone).
  apply Forall_app in Hnone. destruct Hnone as [_ Hnone].
  inversion Hnone as [| c l [f Hf] _]; subst.
  destruct (next_truncated _ r r1 _ En)
    as (_ & He & Hcur & taken & rest & Hp & Hh & Hs & _ & _).
  rewrite Hp in Hne. apply Forall_app in Hne. destruct Hne as [_ Hrest].
  apply nonempty_hd_nil in Hrest; [| exact Hh]. subst rest. simpl in Hs.
  unfold record_reader.next, record_reader.load_next_record.
  rewrite Hs. simpl. unfold line_delimited.find_record_end in *. rewrite Hf.
  destruct (record_reader.current_chunk_ r1) as [| b cur] eqn:Ecur; [congruence |].
  simpl. eexists. split.
  - inversion He. reflexivity.
  - unfold same_buffers. simpl. rewrite Ecur.
    destruct r1 as [[chunks pending] cur1 prev1 rl1 reo1]. simpl in *.
    subst. repeat split.
Qed.

Lemma split_lines_shape (s : memory_block) :
  forall acc : memory_block,
    ~ In delimiter acc ->
    Forall (terminated delimiter) (fst (line_delimited.split_lines delimiter acc s))
    /\ ~ In delimiter (snd (line_delimited.split_lines delimiter acc s))
    /\ concat (fst (line_delimited.split_lines delimiter acc s))
       ++ snd (line_delimited.split_lines delimiter acc s)
       = acc ++ s.
Proof.
  induction s as [| c s IH]; intros acc Hacc; simpl.
  - rewrite app_nil_r. auto.
  - destruct (Byte.eqb c delimiter) eqn:Ec.
    + apply Byte.byte_dec_bl in Ec. subst c.
      destruct (IH [] (fun H => H)) as (Hall & Hpart & Hcat).
      destruct (line_delimited.split_lines delimiter [] s) as [records partial].
      simpl in *. split; [| split; [exact Hpart |]].
      * constructor; [exists acc; auto | exact Hall].
      * rewrite <- !app_assoc, Hcat. reflexivity.
    + apply Byte.eqb_false in Ec.
      assert (Hacc' : ~ In delimiter (acc ++ [c])).
      { intros Hin. apply in_app_or in Hin. destruct Hin as [Hin | [Hin | []]];
          [contradiction | congruence]. }
      destruct (IH (acc ++ [c]) Hacc') as (Hall & Hpart & Hcat).
      rewrite <- app_assoc in Hcat. auto.
Qed.

(** X7.  What the records of the line-delimited strategy look like.  Over
    non-empty chunks, every record drained ends with the delimiter and
    contains no other delimiter; the records, in order, followed by a rest
    without delimiter, are the input; and the drain ends at the end of
    data exactly when that rest is empty (otherwise it fails). *)
Theorem drained_records_are_terminated (chunks : list memory_block) :
  Forall (fun c => c <> []) chunks ->
  Forall (terminated delimiter)
    (record_reader.records_of
       (record_reader.drain (line_delimited.find_record_end delimiter)
          (record_reader.create (byte_stream.open chunks))))
  /\ exists rest : memory_block,
       concat (record_reader.records_of
                 (record_reader.drain (line_delimited.find_record_end delimiter)
                    (record_reader.create (byte_stream.open chunks))))
       ++ rest
       = concat chunks
       /\ ~ In delimiter rest
       /\ (record_reader.ending_of
             (record_reader.drain (line_delimited.find_record_end delimiter)
                (record_reader.create (byte_stream.open chunks)))
           = record_reader.end_of_data
           <-> rest = []).
Proof.
  intros Hne. destruct (drain_lines delimiter chunks Hne) as [Hrec Hend].
  destruct (split_lines_shape (concat chunks) [] (fun H => H)) as (Hall & Hpart & Hcat).
  rewrite Hrec. split; [exact Hall |].
  exists (line_delimited.partial_line delimiter (concat chunks)).
  split; [exact Hcat |]. split; [exact Hpart | exact Hend].
Qed.

End Lines.

Lemma truncation_is_sticky_witness :
  Forall (fun c => c <> [])
    (byte_stream.pending_
       (record_reader.stream_
          (record_reader.create (byte_stream.open examples.unterminated_chunks))))
  /\ exists r1 r2 : record_reader.t,
       record_reader.next (line_delimited.find_record_end examples.LF)
         (record_reader.create (byte_stream.open examples.unterminated_chunks))
       = record_reader.Throws (record_error 2) r1
       /\ record_reader.next (line_delimited.find_record_end examples.LF) r1
          = record_reader.Throws (record_error 2) r2.
Proof.
  assert (H : Forall (fun c : memory_block => c <> [])
                (byte_stream.pending_
                   (record_reader.stream_
                      (record_reader.create
                         (byte_stream.open examples.unterminated_chunks)))))
    by (repeat constructor; discriminate).
  split; [exact H |]. eexists.
  destruct (truncation_is_sticky examples.LF
              (record_reader.create (byte_stream.open examples.unterminated_chunks))
              _ 2 H eq_refl) as [r2 [Hn _]].
  exists r2. split; [reflexivity | exact Hn].
Defined.

Lemma drained_records_are_terminated_witness :
  Forall (fun c => c <> []) examples.three_chunks
  /\ Forall (terminated examples.LF)
       (record_reader.records_of
          (record_reader.drain (line_delimited.find_record_end examples.LF)
             (record_reader.create (byte_stream.open examples.three_chunks)))).
Proof.
  assert (H : Forall (fun c : memory_block => c <> []) examples.three_chunks)
    by (repeat constructor; discriminate).
  split; [exact H |].
  exact (proj1 (drained_records_are_terminated examples.LF examples.three_chunks H)).
Defined.

(* ================================================================= *)
(** ** count_data_source: the sequence of values and reset *)

Lemma wrap_int64_small (z : Z) :
  (- 2 ^ 63 <= z < 2 ^ 63)%Z -> count_data_source.wrap_int64 z = z.
Proof.
  intros Hz. unfold count_data_source.wrap_int64.
  rewrite Z.mod_small by lia. lia.
Qed.

Lemma next_value (s : count_data_source.t) :
  count_data_source.next s
  = (Some (count_data_source.value_of s (count_data_source.counter_ s)),
     count_data_source.post_increment s).
Proof.
  unfold count_data_source.next, count_data_source.value_of.
  destruct (count_data_source.field_name_ s); reflexivity.
Qed.

(** X8.  The counting source counts.  As long as the counter stays within
    the 64-bit range, the first [n] values are the counter, the counter
    plus one, and so on, each wrapped in the dictionary when a field name
    is set, and afterwards the counter stands [n] higher. *)
Theorem count_is_consecutive (n : nat) :
  forall s : count_data_source.t,
    (- 2 ^ 63 <= count_data_source.counter_ s)%Z ->
    (count_data_source.counter_ s + Z.of_nat n < 2 ^ 63)%Z ->
    fst (count_data_source.produce n s)
    = map (fun i => Some (count_data_source.value_of s
                            (count_data_source.counter_ s + Z.of_nat i)%Z))
        (seq 0 n)
    /\ count_data_source.counter_ (snd (count_data_source.produce n s))
       = (count_data_source.counter_ s + Z.of_nat n)%Z.
Proof.
  induction n as [| n IH]; intros s Hlo Hhi.
  - simpl. split; [reflexivity | lia].
  - cbn [count_data_source.produce]. rewrite next_value.
    assert (Hc : count_data_source.counter_ (count_data_source.post_increment s)
                 = (count_data_source.counter_ s + 1)%Z).
    { simpl. apply wrap_int64_small. lia. }
    destruct (IH (count_data_source.post_increment s)) as [IH1 IH2];
      [rewrite Hc; lia | rewrite Hc; lia |].
    destruct (count_data_source.produce n (count_data_source.post_increment s))
      as [ds s''].
    cbn [fst snd] in *. rewrite IH2, Hc. split; [| lia].
    cbn [seq map]. rewrite Z.add_0_r. f_equal.
    rewrite IH1, <- seq_shift, map_map. apply map_ext. intros i.
    rewrite Hc. unfold count_data_source.value_of.
    cbn [count_data_source.field_name_ count_data_source.post_increment].
    rewrite Nat2Z.inj_succ.
    replace (count_data_source.counter_ s + 1 + Z.of_nat i)%Z
      with (count_data_source.counter_ s + Z.succ (Z.of_nat i))%Z by lia.
    reflexivity.
Qed.

Lemma count_is_consecutive_witness :
  (- 2 ^ 63 <= count_data_source.counter_ (count_data_source.create 5 None))%Z
  /\ (count_data_source.counter_ (count_data_source.create 5 None) + Z.of_nat 3
      < 2 ^ 63)%Z
  /\ fst (count_data_source.produce 3 (count_data_source.create 5 None))
     = map (fun i => Some (count_data_source.value_of (count_data_source.create 5 None)
                             (count_data_source.counter_
                                (count_data_source.create 5 None) + Z.of_nat i)%Z))
         (seq 0 3).
Proof.
  assert (H1 : (- 2 ^ 63
                <= count_data_source.counter_ (count_data_source.create 5 None))%Z)
    by (simpl; lia).
  assert (H2 : (count_data_source.counter_ (count_data_source.create 5 None)
                + Z.of_nat 3 < 2 ^ 63)%Z) by (simpl; lia).
  split; [exact H1 |]. split; [exact H2 |].
  exact (proj1 (count_is_consecutive 3 (count_data_source.create 5 None) H1 H2)).
Defined.

Lemma produce_keeps_configuration (n : nat) :
  forall s : count_data_source.t,
    count_data_source.start_ (snd (count_data_source.produce n s))
    = count_data_source.start_ s
    /\ count_data_source.field_name_ (snd (count_data_source.produce n s))
       = count_data_source.field_name_ s.
Proof.
  induction n as [| n IH]; intros s; [split; reflexivity |].
  cbn [count_data_source.produce]. rewrite next_value.
  specialize (IH (count_data_source.post_increment s)).
  destruct (count_data_source.produce n (count_data_source.post_increment s))
    as [ds s''].
  exact IH.
Qed.

(** X9.  [reset] goes back to the start the source was constructed with:
    after any number of calls of [next], and also after a position was
    reloaded from a tape, a reset source produces what a newly constructed
    source with the same start and field name produces. *)
Theorem count_reset_restarts
  (start : Z) (field_name : option string) (k n : nat) (tp : tape.t) :
  fst (count_data_source.produce n
         (count_data_source.reset
            (snd (count_data_source.produce k
                    (count_data_source.create start field_name)))))
  = fst (count_data_source.produce n (count_data_source.create start field_name))
  /\ forall (s' : count_data_source.t) (tp' : tape.t),
       count_data_source.reload_position
         (snd (count_data_source.produce k (count_data_source.create start field_name)))
         tp
       = Ok (s', tp') ->
       fst (count_data_source.produce n (count_data_source.reset s'))
       = fst (count_data_source.produce n (count_data_source.create start field_name)).
Proof.
  destruct (produce_keeps_configuration k (count_data_source.create start field_name))
    as [Hs Hf].
  split.
  - apply produce_ext; simpl; assumption.
  - intros s' tp' E. unfold count_data_source.reload_position in E.
    destruct (tape.read_int64 tp) as [[i tp1] |]; simpl in E; [| discriminate].
    inversion E; subst. apply produce_ext; simpl; assumption.
Qed.

(* ================================================================= *)
(** ** immutable_string: construction and the algebra of split *)

(** X10.  Construction copies the text as it is: the constructor succeeds
    on every byte sequence, well-formed UTF-8 or not, and the view of the
    new string is the text given. *)
Theorem create_copies_the_text (s : memory_block) :
  immutable_string.copy_string s = Ok s
  /\ exists str : immutable_string.t,
       immutable_string.create s = Ok str /\ immutable_string.view str = s.
Proof.
  assert (H : immutable_string.copy_string s = Ok s).
  { unfold immutable_string.copy_string, memory.allocate_memory, memory.size.
    rewrite <- (app_nil_r (repeat x00 (length s))).
    rewrite <- (app_nil_l (repeat x00 (length s) ++ [])).
    replace 0 with (length (@nil byte)) by reflexivity.
    rewrite copy_hole by apply repeat_length. simpl. rewrite app_nil_r. reflexivity. }
  split; [exact H |]. exists (immutable_string.mk s).
  unfold immutable_string.create. rewrite H. split; reflexivity.
Qed.

Section SplitAlgebra.

Variable separator : byte.

Lemma split_is_runs (s : memory_block) :
  immutable_string.split (immutable_string.mk s) separator
  = Ok (map immutable_string.mk (immutable_string.runs separator s)).
Proof.
  unfold immutable_string.split. rewrite split_with_runs, fold_left_push_back.
  reflexivity.
Qed.

Lemma eqb_separator : Byte.eqb separator separator = true.
Proof. apply Byte.byte_dec_lb. reflexivity. Qed.

Lemma fields_app_separator (a b : memory_block) :
  immutable_string.fields separator (a ++ separator :: b)
  = immutable_string.fields separator a ++ immutable_string.fields separator b.
Proof.
  induction a as [| c a IH]; simpl.
  - rewrite eqb_separator. reflexivity.
  - destruct (Byte.eqb c separator).
    + rewrite IH. reflexivity.
    + rewrite IH. pose proof (fields_not_nil separator a) as Hne.
      destruct (immutable_string.fields separator a); [congruence | reflexivity].
Qed.

Lemma fields_without_separator (s : memory_block) :
  ~ In separator s -> immutable_string.fields separator s = [s].
Proof.
  induction s as [| c s IH]; intros Hs; simpl; [reflexivity |].
  destruct (Byte.eqb c separator) eqn:Ec.
  - apply Byte.byte_dec_bl in Ec. subst c. exfalso. apply Hs. left. reflexivity.
  - rewrite IH; [reflexivity |]. intros Hin. apply Hs. right. exact Hin.
Qed.

Lemma runs_app_separator (a b : memory_block) :
  immutable_string.runs separator (a ++ separator :: b)
  = immutable_string.runs separator a ++ immutable_string.runs separator b.
Proof.
  unfold immutable_string.runs. rewrite fields_app_separator. apply filter_app.
Qed.

Lemma runs_without_separator (s : memory_block) :
  ~ In separator s -> s <> [] -> immutable_string.runs separator s = [s].
Proof.
  intros Hs Hne. unfold immutable_string.runs.
  rewrite fields_without_separator by exact Hs.
  destruct s; [congruence | reflexivity].
Qed.

Lemma runs_join (parts : list memory_block) :
  Forall (fun p => p <> [] /\ ~ In separator p) parts ->
  immutable_string.runs separator (immutable_string.join separator parts) = parts.
Proof.
  induction 1 as [| p parts [Hne Hp] Hall IH]; [reflexivity |].
  cbn [immutable_string.join]. destruct parts as [| q parts].
  - apply runs_without_separator; assumption.
  - rewrite runs_app_separator, runs_without_separator, IH by assumption.
    reflexivity.
Qed.

Lemma concat_fields (s : memory_block) :
  concat (immutable_string.fields separator s)
  = filter (fun c => negb (Byte.eqb c separator)) s.
Proof.
  induction s as [| c s IH]; simpl; [reflexivity |].
  destruct (Byte.eqb c separator); simpl; [exact IH |].
  pose proof (fields_not_nil separator s) as Hne.
  destruct (immutable_string.fields separator s); [congruence |].
  simpl in *. rewrite IH. reflexivity.
Qed.

Lemma concat_not_empty (l : list memory_block) :
  concat (filter (fun f => negb (memory.empty f)) l) = concat l.
Proof.
  induction l as [| f l IH]; simpl; [reflexivity |].
  destruct f; simpl; rewrite IH; reflexivity.
Qed.

Lemma length_fields (s : memory_block) :
  length (immutable_string.fields separator s)
  = S (immutable_string.count_separators separator s).
Proof.
  unfold immutable_string.count_separators.
  induction s as [| c s IH]; simpl; [reflexivity |].
  destruct (Byte.eqb c separator); simpl; [rewrite IH; reflexivity |].
  pose proof (fields_not_nil separator s) as Hne.
  destruct (immutable_string.fields separator s); [congruence | exact IH].
Qed.

Lemma runs_only_separators (s : memory_block) :
  Forall (fun c => c = separator) s -> immutable_string.runs separator s = [].
Proof.
  unfold immutable_string.runs.
  induction 1 as [| c s Hc _ IH]; simpl; [reflexivity |].
  subst c. rewrite eqb_separator. simpl. exact IH.
Qed.

(** X11.  Round trip of join and split.  Parts that are not empty and hold
    no separator, joined with one separator between neighbours, split into
    the same parts. *)
Theorem split_of_join (parts : list memory_block) :
  Forall (fun p => p <> [] /\ ~ In separator p) parts ->
  immutable_string.split
    (immutable_string.mk (immutable_string.join separator parts)) separator
  = Ok (map immutable_string.mk parts).
Proof.
  intros Hall. rewrite split_is_runs, runs_join by exact Hall. reflexivity.
Qed.

(** X12.  Splitting distributes over a separator: the parts of a string
    that has a separator at some place are the parts of what stands before
    it followed by the parts of what stands behind it. *)
Theorem split_at_a_separator (a b : memory_block) :
  exists parts_a parts_b : list immutable_string.t,
    immutable_string.split (immutable_string.mk a) separator = Ok parts_a
    /\ immutable_string.split (immutable_string.mk b) separator = Ok parts_b
    /\ immutable_string.split (immutable_string.mk (a ++ separator :: b)) separator
       = Ok (parts_a ++ parts_b).
Proof.
  exists (map immutable_string.mk (immutable_string.runs separator a)),
         (map immutable_string.mk (immutable_string.runs separator b)).
  rewrite !split_is_runs, runs_app_separator, map_app. auto.
Qed.

(** X13.  Split drops the separators and nothing else: the parts,
    concatenated, are the string without its separators, and there are at
    most as many parts as separators plus one. *)
Theorem split_drops_only_separators (s : memory_block) :
  exists parts : list immutable_string.t,
    immutable_string.split (immutable_string.mk s) separator = Ok parts
    /\ concat (map immutable_string.storage_ parts)
       = filter (fun c => negb (Byte.eqb c separator)) s
    /\ length parts <= S (immutable_string.count_separators separator s).
Proof.
  exists (map immutable_string.mk (immutable_string.runs separator s)).
  split; [apply split_is_runs |]. split.
  - rewrite map_map. simpl. rewrite map_id.
    unfold immutable_string.runs. rewrite concat_not_empty. apply concat_fields.
  - rewrite length_map, <- length_fields. unfold immutable_string.runs.
    apply filter_length_le.
Qed.

(** X14.  The edges of split.  The empty string and a string made of
    separators only have no parts; a non-empty string without separator is
    its own single part. *)
Theorem split_edge_cases :
  immutable_string.split (immutable_string.mk []) separator = Ok []
  /\ (forall s : memory_block,
         Forall (fun c => c = separator) s ->
         immutable_string.split (immutable_string.mk s) separator = Ok [])
  /\ (forall s : memory_block,
         ~ In separator s -> s <> [] ->
         immutable_string.split (immutable_string.mk s) separator
         = Ok [immutable_string.mk s]).
Proof.
  split; [reflexivity |]. split; intros s Hs.
  - rewrite split_is_runs, runs_only_separators by exact Hs. reflexivity.
  - intros Hne. rewrite split_is_runs, runs_without_separator by assumption.
    reflexivity.
Qed.

End SplitAlgebra.

Lemma split_of_join_witness :
  Forall (fun p => p <> [] /\ ~ In "a"%byte p)
    [examples.bytes "x"; examples.bytes "y"; examples.bytes "z"]
  /\ immutable_string.split
       (immutable_string.mk
          (immutable_string.join "a"%byte
             [examples.bytes "x"; examples.bytes "y"; examples.bytes "z"]))
       "a"%byte
     = Ok (map immutable_string.mk
             [examples.bytes "x"; examples.bytes "y"; examples.bytes "z"]).
Proof.
  assert (H : Forall (fun p : memory_block => p <> [] /\ ~ In "a"%byte p)
                [examples.bytes "x"; examples.bytes "y"; examples.bytes "z"]).
  { repeat constructor; try discriminate; intros [E | []]; discriminate. }
  split; [exact H |]. exact (split_of_join "a"%byte _ H).
Defined.

(* ================================================================= *)
(** ** sp_encoder: the layout of the encoded tensor *)

Lemma wrap_size_small (z : Z) :
  (0 <= z < 2 ^ 64)%Z -> sp_encoder.wrap_size z = z.
Proof. intros Hz. unfold sp_encoder.wrap_size. apply Z.mod_small. exact Hz. Qed.

Lemma store_at (pre post : list Z) (y x : Z) :
  sp_encoder.store (pre ++ y :: post) (Z.of_nat (length pre)) x
  = sp_encoder.Value (pre ++ x :: post).
Proof.
  unfold sp_encoder.store. rewrite length_app. cbn [length].
  destruct (Z.leb_spec 0 (Z.of_nat (length pre))); [| lia].
  destruct (Z.ltb_spec (Z.of_nat (length pre))
              (Z.of_nat (length pre + S (length post)))); [| lia].
  cbn [andb]. rewrite Nat2Z.id, firstn_length_app.
  replace (y :: post) with ([y] ++ post) by reflexivity.
  rewrite app_assoc.
  replace (S (length pre)) with (length (pre ++ [y]))
    by (rewrite length_app; simpl; lia).
  rewrite skipn_length_app. reflexivity.
Qed.

Lemma store_indices_up (xs : list Z) :
  forall pre zs post : list Z,
    length zs = length xs ->
    (Z.of_nat (length pre + length xs) < 2 ^ 64)%Z ->
    sp_encoder.store_indices sp_encoder.increment xs (pre ++ zs ++ post)
      (Z.of_nat (length pre))
    = sp_encoder.Value (pre ++ xs ++ post, Z.of_nat (length pre + length xs)).
Proof.
  induction xs as [| x xs IH]; intros pre zs post Hlen Hmax.
  - destruct zs; [| discriminate]. simpl. rewrite Nat.add_0_r. reflexivity.
  - destruct zs as [| z zs]; [discriminate |]. simpl in Hlen.
    cbn [sp_encoder.store_indices app].
    rewrite store_at. cbn [sp_encoder.and_then].
    unfold sp_encoder.increment. rewrite wrap_size_small by (simpl in Hmax; lia).
    replace (Z.of_nat (length pre) + 1)%Z with (Z.of_nat (length (pre ++ [x])))
      by (rewrite length_app; simpl; lia).
    replace (pre ++ x :: zs ++ post) with ((pre ++ [x]) ++ zs ++ post)
      by (rewrite <- app_assoc; reflexivity).
    rewrite IH; [| lia | rewrite length_app; simpl in *; lia].
    rewrite <- app_assoc, length_app. simpl. do 2 f_equal. lia.
Qed.

Lemma store_indices_down (xs : list Z) :
  forall pre zs post : list Z,
    length zs = length xs ->
    (Z.of_nat (length pre + length xs) <= 2 ^ 64)%Z ->
    sp_encoder.store_indices sp_encoder.decrement xs (pre ++ zs ++ post)
      (sp_encoder.wrap_size (Z.of_nat (length pre + length zs) - 1))
    = sp_encoder.Value
        (pre ++ rev xs ++ post, sp_encoder.wrap_size (Z.of_nat (length pre) - 1)).
Proof.
  induction xs as [| x xs IH]; intros pre zs post Hlen Hmax.
  - destruct zs; [| discriminate]. simpl. rewrite Nat.add_0_r. reflexivity.
  - destruct (exists_last (l := zs)) as [zs' [z Ez]];
      [intros ->; discriminate |].
    subst zs. rewrite length_app in Hlen. simpl in Hlen.
    cbn [sp_encoder.store_indices].
    assert (Hi : sp_encoder.wrap_size
                   (Z.of_nat (length pre + length (zs' ++ [z])) - 1)
                 = Z.of_nat (length (pre ++ zs'))).
    { rewrite !length_app. simpl. rewrite wrap_size_small; simpl in Hmax; lia. }
    rewrite Hi.
    replace (pre ++ (zs' ++ [z]) ++ post) with ((pre ++ zs') ++ z :: post)
      by (rewrite <- !app_assoc; reflexivity).
    rewrite store_at. cbn [sp_encoder.and_then].
    change (sp_encoder.decrement (Z.of_nat (length (pre ++ zs'))))
      with (sp_encoder.wrap_size (Z.of_nat (length (pre ++ zs')) - 1)).
    replace (Z.of_nat (length (pre ++ zs')) - 1)%Z
      with (Z.of_nat (length pre + length zs') - 1)%Z
      by (rewrite length_app; lia).
    rewrite <- app_assoc.
    rewrite IH; [| lia | simpl in Hmax; lia].
    simpl. rewrite <- !app_assoc. reflexivity.
Qed.

Lemma skipn_nth_cons (A : Type) (d : A) (l : list A) :
  forall j : nat, j < length l -> skipn j l = nth j l d :: skipn (S j) l.
Proof.
  induction l as [| a l IH]; intros j Hj; simpl in Hj; [lia |].
  destruct j as [| j]; [reflexivity |]. simpl. apply IH. lia.
Qed.

(** The loop over the pieces stores their ids, as 64-bit integers, like a
    loop over a vector of indices does. *)
Lemma store_pieces_indices (move : Z -> Z) (spt : list N) (steps : nat) :
  forall (j : nat) (tensor_data : list Z) (i : Z),
    j + steps <= length spt ->
    sp_encoder.store_pieces move spt steps j tensor_data i
    = sp_encoder.store_indices move (map Z.of_N (firstn steps (skipn j spt)))
        tensor_data i.
Proof.
  induction steps as [| steps IH]; intros j tensor_data i Hj; [reflexivity |].
  cbn [sp_encoder.store_pieces].
  rewrite (skipn_nth_cons N 0%N spt j) by lia.
  cbn [firstn map sp_encoder.store_indices]. unfold sp_encoder.get_token_idx.
  destruct (sp_encoder.store tensor_data i (Z.of_N (nth j spt 0%N))); simpl;
    [| reflexivity].
  apply IH. lia.
Qed.

Lemma push_indices_map (float : Type)
  (model : @sp_encoder.sp_model float) (tokens : list string) :
  sp_encoder.push_indices model tokens
  = map (sp_encoder.token_to_index model) tokens.
Proof.
  unfold sp_encoder.push_indices.
  assert (H : forall acc,
             fold_left (fun indices token =>
                          indices ++ [sp_encoder.token_to_index model token])
               tokens acc
             = acc ++ map (sp_encoder.token_to_index model) tokens).
  { induction tokens as [| t tokens IH]; intros acc; simpl.
    - rewrite app_nil_r. reflexivity.
    - rewrite IH, <- app_assoc. reflexivity. }
  apply H.
Qed.

(** Loops that follow each other store like one loop over the indices in
    a row. *)
Lemma store_indices_app (B : Type) (move : Z -> Z) (a b : list Z)
  (k : list Z * Z -> sp_encoder.attempt B) :
  forall (tensor_data : list Z) (i : Z),
    sp_encoder.and_then (sp_encoder.store_indices move a tensor_data i)
      (fun st =>
         sp_encoder.and_then (sp_encoder.store_indices move b (fst st) (snd st)) k)
    = sp_encoder.and_then (sp_encoder.store_indices move (a ++ b) tensor_data i) k.
Proof.
  induction a as [| x a IH]; intros tensor_data i; [reflexivity |].
  cbn [app sp_encoder.store_indices].
  destruct (sp_encoder.store tensor_data i x) as [tensor_data' | f]; [| reflexivity].
  cbn [sp_encoder.and_then]. apply IH.
Qed.

Lemma store_all_up (xs : list Z) :
  (Z.of_nat (length xs) < 2 ^ 64)%Z ->
  sp_encoder.store_indices sp_encoder.increment xs (repeat 0%Z (length xs)) 0
  = sp_encoder.Value (xs, Z.of_nat (length xs)).
Proof.
  intros Hmax.
  pose proof (store_indices_up xs [] (repeat 0%Z (length xs)) []
                (repeat_length _ _) Hmax) as H.
  simpl in H. rewrite !app_nil_r in H. exact H.
Qed.

Lemma store_all_down (xs : list Z) :
  (Z.of_nat (length xs) <= 2 ^ 64)%Z ->
  sp_encoder.store_indices sp_encoder.decrement xs (repeat 0%Z (length xs))
    (sp_encoder.wrap_size (Z.of_nat (length xs) - 1))
  = sp_encoder.Value (rev xs, sp_encoder.wrap_size (-1)).
Proof.
  intros Hmax.
  pose proof (store_indices_down xs [] (repeat 0%Z (length xs)) []
                (repeat_length _ _) Hmax) as H.
  cbn [app length Nat.add] in H. rewrite !app_nil_r, repeat_length in H. exact H.
Qed.

Lemma to_int64_small (z : Z) : (z < 2 ^ 63)%Z -> sp_encoder.to_int64 z = z.
Proof.
  intros Hz. unfold sp_encoder.to_int64.
  destruct (Z.ltb_spec z (2 ^ 63)); [reflexivity | lia].
Qed.

Section Encoder.

Context {at_device float : Type}.
Variable cpu : at_device.

(** [fill_tensor] on a tensor of zeros of the length of the sequence. *)
Lemma fill_tensor_layout
  (enc : @sp_encoder.t at_device float) (proc : @sp_encoder.sp_processor float)
  (sent : immutable_string.t) (X : list N) (extra : Z) (dev : at_device) :
  (Z.of_nat (length (sp_encoder.prefix_token_indices_ enc) + length X
             + length (sp_encoder.suffix_token_indices_ enc)) < 2 ^ 64)%Z ->
  sp_encoder.fill_tensor
    {| sp_encoder.encoder_ := enc;
       sp_encoder.op_processor_ := proc;
       sp_encoder.sentence_ := sent;
       sp_encoder.spt_ := X;
       sp_encoder.extra_tokens_len_ := extra;
       sp_encoder.seq_len_ :=
         Z.of_nat (length (sp_encoder.prefix_token_indices_ enc) + length X
                   + length (sp_encoder.suffix_token_indices_ enc));
       sp_encoder.tensor_ :=
         {| sp_encoder.elements :=
              repeat 0%Z (length (sp_encoder.prefix_token_indices_ enc) + length X
                          + length (sp_encoder.suffix_token_indices_ enc));
            sp_encoder.placed_on := dev |} |}
  = sp_encoder.Value
      {| sp_encoder.encoder_ := enc;
         sp_encoder.op_processor_ := proc;
         sp_encoder.sentence_ := sent;
         sp_encoder.spt_ := X;
         sp_encoder.extra_tokens_len_ := extra;
         sp_encoder.seq_len_ :=
           Z.of_nat (length (sp_encoder.prefix_token_indices_ enc) + length X
                     + length (sp_encoder.suffix_token_indices_ enc));
         sp_encoder.tensor_ :=
           {| sp_encoder.elements :=
                (if sp_encoder.reverse (sp_encoder.opts_ enc)
                 then @rev Z else (fun l => l))
                  (sp_encoder.prefix_token_indices_ enc ++ map Z.of_N X
                   ++ sp_encoder.suffix_token_indices_ enc);
              sp_encoder.placed_on := dev |} |}.
Proof.
  set (P := sp_encoder.prefix_token_indices_ enc).
  set (S' := sp_encoder.suffix_token_indices_ enc).
  intros Hmax. unfold sp_encoder.fill_tensor.
  cbn [sp_encoder.encoder_ sp_encoder.spt_ sp_encoder.seq_len_ sp_encoder.tensor_
       sp_encoder.elements sp_encoder.placed_on sp_encoder.op_processor_
       sp_encoder.sentence_ sp_encoder.extra_tokens_len_].
  fold P S'.
  assert (Hlen : length P + length X + length S'
                 = length (P ++ map Z.of_N X ++ S'))
    by (rewrite !length_app, length_map; lia).
  assert (Hchain : forall (move : Z -> Z) (i : Z)
                          (k : list Z * Z
                               -> sp_encoder.attempt
                                    (@sp_encoder.encoder_op at_device float)),
             sp_encoder.and_then
               (sp_encoder.store_indices move P
                  (repeat 0%Z (length P + length X + length S')) i)
               (fun st1 =>
                  sp_encoder.and_then
                    (sp_encoder.store_pieces move X (length X) 0 (fst st1) (snd st1))
                    (fun st2 =>
                       sp_encoder.and_then
                         (sp_encoder.store_indices move S' (fst st2) (snd st2)) k))
             = sp_encoder.and_then
                 (sp_encoder.store_indices move (P ++ map Z.of_N X ++ S')
                    (repeat 0%Z (length (P ++ map Z.of_N X ++ S'))) i) k).
  { intros move i k. rewrite <- Hlen.
    rewrite <- (store_indices_app _ move P (map Z.of_N X ++ S') k).
    assert (Hin : forall st1 : list Z * Z,
               sp_encoder.and_then
                 (sp_encoder.store_pieces move X (length X) 0 (fst st1) (snd st1))
                 (fun st2 =>
                    sp_encoder.and_then
                      (sp_encoder.store_indices move S' (fst st2) (snd st2)) k)
               = sp_encoder.and_then
                   (sp_encoder.store_indices move (map Z.of_N X ++ S')
                      (fst st1) (snd st1)) k).
    { intros st1. rewrite store_pieces_indices by (simpl; lia).
      simpl skipn. rewrite firstn_all. apply store_indices_app. }
    destruct (sp_encoder.store_indices move P
                (repeat 0%Z (length P + length X + length S')) i) as [st1 | f];
      [cbn [sp_encoder.and_then]; apply Hin | reflexivity]. }
  rewrite Hchain. destruct (sp_encoder.reverse (sp_encoder.opts_ enc)).
  - rewrite Hlen, store_all_down by lia. reflexivity.
  - rewrite store_all_up by lia. reflexivity.
Qed.

(** [run] on an operation as [encode] sets it up. *)
Lemma run_layout
  (enc : @sp_encoder.t at_device float) (sent : immutable_string.t)
  (spt0 : list N) (seq0 : Z) (tn0 : @sp_encoder.tensor at_device) :
  (Z.of_nat (length (sp_encoder.prefix_token_indices_ enc)
             + length (sp_encoder.pieces_for enc sent)
             + length (sp_encoder.suffix_token_indices_ enc)) < 2 ^ 63)%Z ->
  sp_encoder.run cpu
    {| sp_encoder.encoder_ := enc;
       sp_encoder.op_processor_ := sp_encoder.processor_ (sp_encoder.model_ enc);
       sp_encoder.sentence_ := sent;
       sp_encoder.spt_ := spt0;
       sp_encoder.extra_tokens_len_ :=
         Z.of_nat (length (sp_encoder.prefix_token_indices_ enc)
                   + length (sp_encoder.suffix_token_indices_ enc));
       sp_encoder.seq_len_ := seq0;
       sp_encoder.tensor_ := tn0 |}
  = sp_encoder.Value
      {| sp_encoder.elements :=
           (if sp_encoder.reverse (sp_encoder.opts_ enc)
            then @rev Z else (fun l => l))
             (sp_encoder.prefix_token_indices_ enc
              ++ map Z.of_N (sp_encoder.pieces_for enc sent)
              ++ sp_encoder.suffix_token_indices_ enc);
         sp_encoder.placed_on :=
           match sp_encoder.device (sp_encoder.opts_ enc) with
           | Some d => d
           | None => cpu
           end |}.
Proof.
  unfold sp_encoder.pieces_for, sp_encoder.run, sp_encoder.encode_string.
  cbn [sp_encoder.encoder_ sp_encoder.op_processor_ sp_encoder.sentence_
       sp_encoder.extra_tokens_len_ sp_encoder.seq_len_ sp_encoder.spt_
       sp_encoder.tensor_].
  cbv zeta.
  set (P := sp_encoder.prefix_token_indices_ enc).
  set (S' := sp_encoder.suffix_token_indices_ enc).
  destruct (sp_encoder.enable_sampling (sp_encoder.opts_ enc));
    match goal with
    | |- context [map Z.of_N ?pieces] => set (X := pieces)
    end;
    intros Hmax;
    (assert (Hseq : sp_encoder.wrap_size
                      (Z.of_nat (length X) + Z.of_nat (length P + length S'))
                    = Z.of_nat (length P + length X + length S'))
      by (rewrite wrap_size_small; lia));
    rewrite Hseq, to_int64_small by exact Hmax;
    unfold sp_encoder.zeros;
    (destruct (Z.ltb_spec (Z.of_nat (length P + length X + length S')) 0); [lia |]);
    cbn [sp_encoder.and_then]; rewrite Nat2Z.id;
    subst P S'; rewrite fill_tensor_layout by lia;
    cbn [sp_encoder.and_then sp_encoder.encoder_ sp_encoder.tensor_];
    destruct (sp_encoder.device (sp_encoder.opts_ enc)); reflexivity.
Qed.

Lemma encode_layout_aux
  (model : @sp_encoder.sp_model float)
  (opts : @sp_encoder.sp_encoder_options at_device float)
  (sentence : immutable_string.t) :
  (Z.of_nat (length (sp_encoder.token_sequence
                       (sp_encoder.create model opts) sentence)) < 2 ^ 63)%Z ->
  sp_encoder.encode cpu (sp_encoder.create model opts) sentence
  = sp_encoder.Value
      {| sp_encoder.elements :=
           if sp_encoder.reverse opts
           then rev (sp_encoder.token_sequence (sp_encoder.create model opts) sentence)
           else sp_encoder.token_sequence (sp_encoder.create model opts) sentence;
         sp_encoder.placed_on :=
           match sp_encoder.device opts with
           | Some d => d
           | None => cpu
           end |}.
Proof.
  set (enc := sp_encoder.create model opts).
  assert (HP : sp_encoder.prefix_token_indices_ enc
               = map (sp_encoder.token_to_index model) (sp_encoder.prefix_tokens opts))
    by apply push_indices_map.
  assert (HS : sp_encoder.suffix_token_indices_ enc
               = map (sp_encoder.token_to_index model) (sp_encoder.suffix_tokens opts))
    by apply push_indices_map.
  unfold sp_encoder.token_sequence.
  change (sp_encoder.model_ enc) with model.
  change (sp_encoder.opts_ enc) with opts.
  rewrite <- HP, <- HS, !length_app, length_map. intros Hmax.
  unfold sp_encoder.encode, sp_encoder.new_op.
  assert (Hextra : sp_encoder.wrap_size
                     (sp_encoder.wrap_size
                        (0 + Z.of_nat (length (sp_encoder.prefix_token_indices_ enc)))
                      + Z.of_nat (length (sp_encoder.suffix_token_indices_ enc)))
                   = Z.of_nat (length (sp_encoder.prefix_token_indices_ enc)
                               + length (sp_encoder.suffix_token_indices_ enc))).
  { rewrite (wrap_size_small (0 + _)) by lia. rewrite wrap_size_small by lia. lia. }
  rewrite Hextra, run_layout by lia.
  change (sp_encoder.opts_ enc) with opts.
  destruct (sp_encoder.reverse opts); reflexivity.
Qed.

(** X15.  The layout of an encoded sentence.  For an encoder constructed
    from a model and options, and a sentence whose prefix tokens, pieces
    and suffix tokens are fewer than 2^63 together: [encode] succeeds, no
    write leaves the tensor, and the tensor holds the indices of the prefix
    tokens in the order of the options, then the ids of the pieces, then
    the indices of the suffix tokens; with the [reverse] option it holds
    the same sequence back to front.  The tensor is on the device of the
    options, or on the CPU when they name none.  This covers the empty
    sequence, where [seq_len_ - 1] wraps around and nothing is written. *)
Theorem encode_layout
  (model : @sp_encoder.sp_model float)
  (opts : @sp_encoder.sp_encoder_options at_device float)
  (sentence : immutable_string.t) :
  (Z.of_nat (length (sp_encoder.token_sequence
                       (sp_encoder.create model opts) sentence)) < 2 ^ 63)%Z ->
  sp_encoder.encode cpu (sp_encoder.create model opts) sentence
  = sp_encoder.Value
      {| sp_encoder.elements :=
           if sp_encoder.reverse opts
           then rev (sp_encoder.token_sequence (sp_encoder.create model opts) sentence)
           else sp_encoder.token_sequence (sp_encoder.create model opts) sentence;
         sp_encoder.placed_on :=
           match sp_encoder.device opts with
           | Some d => d
           | None => cpu
           end |}.
Proof. exact (encode_layout_aux model opts sentence). Qed.

(** X16.  [operator()] takes strings only.  Data that is not a string, a
    tensor for one, is refused with [invalid_argument]; for a string whose
    token sequence is shorter than 2^63 the call succeeds and returns the
    tensor that [encode] lays out. *)
Theorem call_takes_strings_only
  (model : @sp_encoder.sp_model float)
  (opts : @sp_encoder.sp_encoder_options at_device float) :
  (forall tn : sp_encoder.tensor,
      sp_encoder.call cpu (sp_encoder.create model opts) (sp_encoder.value_tensor tn)
      = sp_encoder.Fails sp_encoder.invalid_argument)
  /\ (forall d : data,
         sp_encoder.call cpu (sp_encoder.create model opts) (sp_encoder.value_other d)
         = sp_encoder.Fails sp_encoder.invalid_argument)
  /\ (forall sentence : immutable_string.t,
         (Z.of_nat (length (sp_encoder.token_sequence
                              (sp_encoder.create model opts) sentence)) < 2 ^ 63)%Z ->
         exists tn : sp_encoder.tensor,
           sp_encoder.call cpu (sp_encoder.create model opts)
             (sp_encoder.value_string sentence)
           = sp_encoder.Value (sp_encoder.value_tensor tn)
           /\ sp_encoder.encode cpu (sp_encoder.create model opts) sentence
              = sp_encoder.Value tn
           /\ length (sp_encoder.elements tn)
              = length (sp_encoder.prefix_tokens opts)
                + length (sp_encoder.pieces_for (sp_encoder.create model opts) sentence)
                + length (sp_encoder.suffix_tokens opts)).
Proof.
  split; [reflexivity |]. split; [reflexivity |].
  intros sentence Hmax. pose proof (encode_layout_aux model opts sentence Hmax) as He.
  eexists. unfold sp_encoder.call. rewrite He. cbn [sp_encoder.and_then].
  split; [reflexivity |]. split; [reflexivity |].
  cbn [sp_encoder.elements]. unfold sp_encoder.token_sequence.
  destruct (sp_encoder.reverse opts);
    rewrite ?length_rev, !length_app, !length_map;
    cbn [sp_encoder.opts_ sp_encoder.create]; lia.
Qed.

End Encoder.

Lemma encode_layout_witness :
  (Z.of_nat (length (sp_encoder.token_sequence
                       (sp_encoder.create toy_encoder.model (toy_encoder.opts true))
                       (immutable_string.mk (examples.bytes "ab")))) < 2 ^ 63)%Z
  /\ sp_encoder.encode tt
       (sp_encoder.create toy_encoder.model (toy_encoder.opts true))
       (immutable_string.mk (examples.bytes "ab"))
     = sp_encoder.Value
         {| sp_encoder.elements := [4; 98; 97; 3]%Z; sp_encoder.placed_on := tt |}.
Proof.
  assert (H : (Z.of_nat
                 (length (sp_encoder.token_sequence
                            (sp_encoder.create toy_encoder.model (toy_encoder.opts true))
                            (immutable_string.mk (examples.bytes "ab")))) < 2 ^ 63)%Z)
    by (vm_compute; reflexivity).
  split; [exact H |].
  exact (encode_layout tt toy_encoder.model (toy_encoder.opts true)
           (immutable_string.mk (examples.bytes "ab")) H).
Defined.

(* ================================================================= *)
(** ** record_reader: calling next again after an error *)

Lemma copy_chunks_ok_inv (chunks : list memory_block) :
  forall (buf buf' : memory_block) (iter iter' : nat),
    iter <= length buf ->
    record_reader.copy_chunks chunks buf iter = Ok (buf', iter') ->
    iter' = iter + length (concat chunks) /\ iter' <= length buf
    /\ length buf' = length buf.
Proof.
  induction chunks as [| block chunks IH]; intros buf buf' iter iter' Hi E; simpl in E.
  - inversion E; subst. simpl. repeat split; lia.
  - destruct (memory.copy block buf iter) as [[buf1 iter1] |] eqn:E1;
      simpl in E; [| discriminate].
    apply copy_inv in E1. destruct E1 as (H1 & H2 & H3).
    apply IH in E; [| lia]. cbn [concat]. rewrite length_app. lia.
Qed.

(** A copy that succeeds has room for what it copies. *)
Lemma copy_split_record_room (r : record_reader.t) (rec : memory_block) :
  record_reader.copy_split_record r = Ok rec ->
  length (concat (record_reader.previous_chunks_ r)) + record_reader.record_end_offset_ r
  <= record_reader.record_length_ r.
Proof.
  unfold record_reader.copy_split_record. intros E.
  destruct (record_reader.copy_chunks _ _ _) as [[buf1 iter1] |] eqn:E1;
    simpl in E; [| discriminate].
  apply copy_chunks_ok_inv in E1; [| lia].
  unfold memory.allocate_memory in E1. rewrite repeat_length in E1.
  destruct (Nat.leb_spec (record_reader.record_end_offset_ r)
              (memory.size (record_reader.current_chunk_ r))); [| discriminate].
  destruct (memory.copy _ _ _) as [[buf2 iter2] |] eqn:E2; simpl in E; [| discriminate].
  apply copy_inv in E2. rewrite length_firstn in E2. unfold memory.size in *. lia.
Qed.

Lemma copy_split_record_throw (r : record_reader.t) (e : error) :
  record_reader.copy_split_record r = Throw e -> e = memory_fault.
Proof.
  unfold record_reader.copy_split_record.
  destruct (record_reader.copy_chunks _ _ _) as [[buf iter] | e'] eqn:Ecc; simpl.
  - destruct (_ <=? _); [| intros E; inversion E; reflexivity].
    unfold memory.copy. destruct (_ <=? _); simpl; intros E; inversion E. reflexivity.
  - intros E. inversion E; subst. apply copy_chunks_throw in Ecc. exact Ecc.
Qed.

Section Stale.

Variable find_record_end : memory_block -> bool -> option nat.

(** X17.  Why a reader that has thrown must be reset.  The throw leaves
    the partial record in the previous chunks, and the next call starts
    [record_length_] from zero without clearing them.  So if a reader
    whose previous chunks hold bytes is called again and a boundary is
    found (the stream went on after its empty block, or the strategy
    decides otherwise with the first-chunk flag set), the record buffer is
    allocated too small for what is copied into it: the copy runs past its
    end. *)
Theorem stale_chunks_overrun_the_buffer (r r1 : record_reader.t) :
  concat (record_reader.previous_chunks_ r) <> [] ->
  record_reader.load_next_record find_record_end r = record_reader.Returns true r1 ->
  record_reader.record_length_ r1
  < length (concat (record_reader.previous_chunks_ r1))
    + record_reader.record_end_offset_ r1
  /\ record_reader.extract_record r1 = Throw memory_fault
  /\ record_reader.next find_record_end r = record_reader.Throws memory_fault r1.
Proof.
  intros Hstale El. assert (Hl := El).
  unfold record_reader.load_next_record in Hl. apply load_loop_true in Hl.
  simpl in Hl. destruct Hl as (taken & _ & _ & _ & Hprev & Hlen & _).
  assert (Hpos : 0 < length (concat (record_reader.previous_chunks_ r)))
    by (destruct (concat (record_reader.previous_chunks_ r)); [congruence | simpl; lia]).
  assert (Hsmall : record_reader.record_length_ r1
                   < length (concat (record_reader.previous_chunks_ r1))
                     + record_reader.record_end_offset_ r1) by lia.
  assert (Hne : record_reader.previous_chunks_ r1 <> []).
  { apply snoc_cases in Hprev.
    destruct Hprev as [(_ & -> & _) | (taken' & _ & ->)].
    - intros E. rewrite E in Hstale. apply Hstale. reflexivity.
    - destruct (record_reader.previous_chunks_ r); discriminate. }
  assert (Hex : record_reader.extract_record r1 = Throw memory_fault).
  { assert (Hext : record_reader.extract_record r1
                   = record_reader.copy_split_record r1).
    { unfold record_reader.extract_record.
      destruct (record_reader.previous_chunks_ r1); [congruence | reflexivity]. }
    rewrite Hext.
    destruct (record_reader.copy_split_record r1) as [rec | e] eqn:Ec.
    - apply copy_split_record_room in Ec. lia.
    - apply copy_split_record_throw in Ec. rewrite Ec. reflexivity. }
  split; [exact Hsmall |]. split; [exact Hex |].
  unfold record_reader.next. rewrite El, Hex. reflexivity.
Qed.

End Stale.

Lemma stale_chunks_overrun_the_buffer_witness :
  exists r0 r1 : record_reader.t,
    record_reader.next line_delimited.find_line_end
      (record_reader.create (byte_stream.open examples.resumed_chunks))
    = record_reader.Throws (record_error 2) r0
    /\ concat (record_reader.previous_chunks_ r0) <> []
    /\ record_reader.load_next_record line_delimited.find_line_end r0
       = record_reader.Returns true r1
    /\ record_reader.next line_delimited.find_line_end r0
       = record_reader.Throws memory_fault r1.
Proof.
  do 2 eexists. split; [vm_compute; reflexivity |].
  match goal with
  | |- concat (record_reader.previous_chunks_ ?r) <> [] /\ _ =>
      assert (H : concat (record_reader.previous_chunks_ r) <> [])
        by (vm_compute; discriminate);
      split; [exact H |]; split; [vm_compute; reflexivity |];
      exact (proj2 (proj2 (stale_chunks_overrun_the_buffer
                             line_delimited.find_line_end r _ H eq_refl)))
  end.
Defined.
